(** * lsne5: gravitational lensing simulator

    A shallow embedding of the stepping engine of [src/lsne5.py]: the
    session state, [calculate_magnification], [reset_simulation], the
    sidebar buttons, the main simulation loop (its body, the loop as a
    whole, and the passes Streamlit cuts short when the user acts while the
    loop runs), the brightness index of the source star and the closing
    message.

    Python floats and [np.float64] are IEEE-754 binary64 numbers.  They are
    modelled by [spec_float] with the reference operations of
    [Corelib.Floats.SpecFloat] at precision 53 and maximal exponent 1024
    (round to nearest, ties to even), which compute inside Rocq.  Python
    integers are [Z]. *)

From Stdlib Require Import ZArith NArith List Bool Lia.
From Stdlib Require Import SpecFloat.
Import ListNotations.

Local Open Scope Z_scope.

(* ================================================================== *)
(** * Binary64 arithmetic *)

Module F64.

Definition prec : Z := 53.
Definition emax : Z := 1024.

Definition f64 := spec_float.

Definition add : f64 -> f64 -> f64 := SFadd prec emax.
Definition sub : f64 -> f64 -> f64 := SFsub prec emax.
Definition mul : f64 -> f64 -> f64 := SFmul prec emax.
Definition div : f64 -> f64 -> f64 := SFdiv prec emax.
Definition sqrt : f64 -> f64 := SFsqrt prec emax.
Definition abs : f64 -> f64 := SFabs.
Definition ltb : f64 -> f64 -> bool := SFltb.
Definition leb : f64 -> f64 -> bool := SFleb.

(** Conversion of a Python [int] to a float (correctly rounded). *)
Definition of_Z (n : Z) : f64 := binary_normalize prec emax n 0 false.

Definition is_finite (x : f64) : bool :=
  match x with
  | S754_zero _ | S754_finite _ _ _ => true
  | S754_infinity _ | S754_nan => false
  end.

Definition is_nan (x : f64) : bool :=
  match x with S754_nan => true | _ => false end.

(** The integer a float stands for, when it is finite and integral. *)
Definition int_value (x : f64) : option Z :=
  match x with
  | S754_zero _ => Some 0
  | S754_finite s m (Zneg k) =>
      if Z.pos m mod 2 ^ Z.pos k =? 0
      then Some (cond_Zopp s (Z.pos m / 2 ^ Z.pos k))
      else None
  | S754_finite s m e => Some (cond_Zopp s (Z.pos m * 2 ^ e))
  | S754_infinity _ | S754_nan => None
  end.

(** C's [fmod] on finite operands: the exact remainder, with the sign of
    the dividend. *)
Definition fmod (x y : f64) : f64 :=
  match x, y with
  | S754_nan, _ | _, S754_nan => S754_nan
  | S754_infinity _, _ => S754_nan
  | _, S754_zero _ => S754_nan
  | _, S754_infinity _ => x
  | S754_zero _, S754_finite _ _ _ => x
  | S754_finite sx mx ex, S754_finite _ my ey =>
      let ez := Z.min ex ey in
      let X := Z.pos (fst (shl_align mx ex ez)) in
      let Y := Z.pos (fst (shl_align my ey ez)) in
      binary_normalize prec emax (cond_Zopp sx (X mod Y)) ez sx
  end.

Definition is_zero (x : f64) : bool :=
  match x with S754_zero _ => true | _ => false end.

Definition sign_bit (x : f64) : bool :=
  match x with
  | S754_zero s | S754_infinity s | S754_finite s _ _ => s
  | S754_nan => false
  end.

(** Python's [float.__mod__] ([float_rem] of CPython): [fmod], moved to
    the sign of the divisor.  A zero divisor raises in Python; it is NaN
    here. *)
Definition py_mod (x y : f64) : f64 :=
  let m := fmod x y in
  if is_nan m then m
  else if is_zero m then S754_zero (sign_bit y)
  else if Bool.eqb (ltb y (S754_zero false)) (ltb m (S754_zero false))
       then m else add m y.

Declare Scope f64_scope.
Delimit Scope f64_scope with f64.
Bind Scope f64_scope with f64.
Infix "+" := add : f64_scope.
Infix "-" := sub : f64_scope.
Infix "*" := mul : f64_scope.
Infix "/" := div : f64_scope.
Infix "<?" := ltb : f64_scope.
Infix "<=?" := leb : f64_scope.

End F64.

Import F64.

(* ================================================================== *)
(** * The program *)

(** ** Constants (lines 61-63) *)

Definition SIM_WIDTH : Z := 400.
Definition SIM_HEIGHT : Z := 300.
Definition TIME_STEPS : Z := 400.

(** Python's true division [a / b] of two integers that are both exactly
    representable: the quotient of the converted operands. *)
Definition int_truediv (a b : Z) : f64 := (of_Z a / of_Z b)%f64.

(** ** Session state (lines 68-75) *)

Record session_state := mk_state {
  is_running : bool;
  time_step : Z;
  light_curve_data : list (Z * f64);   (* rows (Time, Magnification) *)
  lens_pos_x : f64
}.

Definition initial_state : session_state :=
  {| is_running := false;
     time_step := 0;
     light_curve_data := [];
     lens_pos_x := int_truediv (- SIM_WIDTH) 2 |}.

(** ** Float literals of the source *)

(** [1e-9], i.e. 0x1.12e0be826d695p-30. *)
Definition epsilon : f64 := S754_finite false 4835703278458517 (-82).
(** [0.1], i.e. 0x1.999999999999ap-4. *)
Definition lit_0_1 : f64 := S754_finite false 7205759403792794 (-56).
(** [np.pi], i.e. 0x1.921fb54442d18p+1. *)
Definition np_pi : f64 := S754_finite false 7074237752028440 (-51).
(** [1.0]. *)
Definition lit_1_0 : f64 := S754_finite false 4503599627370496 (-52).

(** ** calculate_magnification (lines 79-104)

    [u**2] is taken as the correctly rounded square [u * u]. *)

Definition point_lens (u : f64) : f64 :=
  ((u * u + of_Z 2) / (u * sqrt (u * u + of_Z 4)))%f64.

Definition point_lens_guarded (u : f64) : f64 :=
  ((u * u + of_Z 2) / ((u + epsilon) * sqrt (u * u + of_Z 4)))%f64.

Definition rho_of (source_radius einstein_radius : f64) : f64 :=
  (source_radius / (einstein_radius + epsilon))%f64.

Definition calculate_magnification (u source_radius einstein_radius : f64)
  : f64 :=
  let rho := rho_of source_radius einstein_radius in
  if (u <=? rho)%f64 then
    if (rho <? epsilon)%f64 then point_lens_guarded u
    else
      let u_calc := rho in
      point_lens u_calc
  else point_lens u.

(** ** reset_simulation (lines 106-111) *)

Definition reset_simulation (_ : session_state) : session_state :=
  {| is_running := false;
     time_step := 0;
     light_curve_data := [];
     lens_pos_x := int_truediv (- SIM_WIDTH) 2 |}.

(** ** Sidebar (lines 115-157) *)

(** The values bound by the sidebar widgets.  [lens_radius] and
    [planet_radius] only reach the drawing calls and are left out. *)
Record sidebar := mk_sidebar {
  lens_mass : f64;
  lens_dist_factor : f64;
  has_planet : bool;
  planet_mass_slider : f64;
  planet_orbit_dist_slider : Z;
  planet_orbit_speed_slider : f64;
  source_radius : Z
}.

(** Lines 128-138: without a planet the planet parameters are zero (the
    integer 0 of the source where a float is expected is the float 0.0). *)
Definition planet_mass (c : sidebar) : f64 :=
  if has_planet c then planet_mass_slider c else S754_zero false.
Definition planet_orbit_dist (c : sidebar) : Z :=
  if has_planet c then planet_orbit_dist_slider c else 0.
Definition planet_orbit_speed (c : sidebar) : f64 :=
  if has_planet c then planet_orbit_speed_slider c else of_Z 0.

(** "Start / Resume" (lines 148-149). *)
Definition press_start (s : session_state) : session_state :=
  {| is_running := true;
     time_step := time_step s;
     light_curve_data := light_curve_data s;
     lens_pos_x := lens_pos_x s |}.

(** "Pause" (lines 155-157): the button only exists while running. *)
Definition press_pause (s : session_state) : session_state :=
  if is_running s then
    {| is_running := false;
       time_step := time_step s;
       light_curve_data := light_curve_data s;
       lens_pos_x := lens_pos_x s |}
  else s.

(** ** Main simulation loop (lines 179-315)

    A pass of the loop body that runs to its end is one step of the
    engine: it advances the lens (line 186), computes the frame (lines
    188-214), appends the sample (lines 217-218), draws, increments the time
    step (line 309) and tests the end of the run (lines 310-311).  The
    drawing calls and [time.sleep] do not touch the session state.  A pass
    that the user interrupts stops at a drawing call; see [cut_body]. *)

(** What one iteration computes before it draws. *)
Record frame := mk_frame {
  frame_lens_pos_x : f64;
  frame_lens_pos_y : f64;
  frame_planet_pos_x : f64;
  frame_planet_pos_y : f64;
  magnification_star : f64;
  magnification_planet : f64;
  total_magnification : f64
}.

Definition source_pos_x : Z := 0.
Definition earth_pos_y : Z := 20.
Definition source_pos_y : Z := SIM_HEIGHT - 20.

Definition einstein_radius (mass : f64) : f64 := (of_Z 15 * sqrt mass)%f64.

Definition impact_parameter (body_x : f64) : f64 :=
  abs (body_x - of_Z source_pos_x)%f64.

(** Magnification of one body seen at [body_x] (lines 200-203, 207-211). *)
Definition body_magnification (c : sidebar) (body_x mass : f64) : f64 :=
  let e_r := einstein_radius mass in
  let u := (impact_parameter body_x / e_r)%f64 in
  calculate_magnification u (of_Z (source_radius c)) e_r.

(** What can happen to the session: a press on one of the three buttons, or
    one pass of the loop that runs to its end. *)
Inductive event := Start | Pause | Reset | Step.

Section Loop.

(** [np.cos] and [np.sin] are not fixed by IEEE-754; any pair of functions
    on floats will do. *)
Variables np_cos np_sin : f64 -> f64.

Variable c : sidebar.

(** Lines 186-214, for the lens position [x] already advanced and the
    time step [t] not yet incremented. *)
Definition compute_frame (x : f64) (t : Z) : frame :=
  let lens_pos_y :=
    (of_Z earth_pos_y
     + of_Z (source_pos_y - earth_pos_y) * lens_dist_factor c)%f64 in
  let angle :=
    py_mod (of_Z t * planet_orbit_speed c * lit_0_1)%f64
           (of_Z 2 * np_pi)%f64 in
  let planet_pos_x := (x + of_Z (planet_orbit_dist c) * np_cos angle)%f64 in
  let planet_pos_y :=
    (lens_pos_y + of_Z (planet_orbit_dist c) * np_sin angle)%f64 in
  let mag_star := body_magnification c x (lens_mass c) in
  let mag_planet :=
    if has_planet c
    then (body_magnification c planet_pos_x (planet_mass c) - lit_1_0)%f64
    else of_Z 0 in
  {| frame_lens_pos_x := x;
     frame_lens_pos_y := lens_pos_y;
     frame_planet_pos_x := planet_pos_x;
     frame_planet_pos_y := planet_pos_y;
     magnification_star := mag_star;
     magnification_planet := mag_planet;
     total_magnification := (mag_star + mag_planet)%f64 |}.

(** One pass through the body of [while st.session_state.is_running]. *)
Definition loop_body (s : session_state) : session_state :=
  let x := (lens_pos_x s + int_truediv SIM_WIDTH TIME_STEPS)%f64 in
  let f := compute_frame x (time_step s) in
  let data := light_curve_data s ++ [(time_step s, total_magnification f)] in
  let t := time_step s + 1 in
  {| is_running :=
       if (int_truediv SIM_WIDTH 2 <? x)%f64 then false else is_running s;
     time_step := t;
     light_curve_data := data;
     lens_pos_x := x |}.

(** The engine's [step]: the loop body runs only while [is_running]. *)
Definition step (s : session_state) : session_state :=
  if is_running s then loop_body s else s.

Definition apply_event (s : session_state) (e : event) : session_state :=
  match e with
  | Start => press_start s
  | Pause => press_pause s
  | Reset => reset_simulation s
  | Step => step s
  end.

Definition run (s : session_state) (tr : list event) : session_state :=
  fold_left apply_event tr s.

(** Loop iterations executed since the most recent reset. *)
Definition count_event (acc : session_state * nat) (e : event)
  : session_state * nat :=
  let '(s, n) := acc in
  match e with
  | Reset => (reset_simulation s, O)
  | Step => (step s, if is_running s then S n else n)
  | _ => (apply_event s e, n)
  end.

Definition run_counting (s : session_state) (tr : list event)
  : session_state * nat :=
  fold_left count_event tr (s, O).

(** "Start / Resume" followed by one loop iteration. *)
Definition resume_step (s : session_state) : session_state :=
  step (press_start s).

(** The state [t] loop iterations after a reset. *)
Definition after_steps (t : N) : session_state :=
  N.iter t resume_step initial_state.

End Loop.

(* ================================================================== *)
(** * Reference definitions taken from the specification *)

(** The closed form of the lens position, over the integers:
    [-simWidth/2 + t * simWidth/totalSteps].  Both divisions are exact. *)
Definition closed_form (t : Z) : Z :=
  - SIM_WIDTH / 2 + t * SIM_WIDTH / TIME_STEPS.

(** The input domain of the magnification contract: numbers with [u >= 0],
    [sourceRadius > 0] and [einsteinRadius >= 0]. *)
Definition in_domain (u source_radius einstein_radius : f64) : Prop :=
  is_finite u = true /\ is_finite source_radius = true /\
  is_finite einstein_radius = true /\
  (of_Z 0 <=? u)%f64 = true /\
  (of_Z 0 <? source_radius)%f64 = true /\
  (of_Z 0 <=? einstein_radius)%f64 = true.

(** The reference definition of the magnification, case by case as the
    specification words it. *)
Inductive magnification_ref (u source_radius einstein_radius : f64)
  : f64 -> Prop :=
| ref_point_source :
    let rho := (source_radius / (einstein_radius + epsilon))%f64 in
    (u <=? rho)%f64 = true -> (rho <? epsilon)%f64 = true ->
    magnification_ref u source_radius einstein_radius
      ((u * u + of_Z 2) / ((u + epsilon) * sqrt (u * u + of_Z 4)))%f64
| ref_flat_top :
    let rho := (source_radius / (einstein_radius + epsilon))%f64 in
    (u <=? rho)%f64 = true -> (epsilon <=? rho)%f64 = true ->
    magnification_ref u source_radius einstein_radius
      ((rho * rho + of_Z 2) / (rho * sqrt (rho * rho + of_Z 4)))%f64
| ref_standard :
    let rho := (source_radius / (einstein_radius + epsilon))%f64 in
    (rho <? u)%f64 = true ->
    magnification_ref u source_radius einstein_radius
      ((u * u + of_Z 2) / (u * sqrt (u * u + of_Z 4)))%f64.

(** Equality of floats as numbers: the same float, or two zeros. *)
Definition same_value (x y : f64) : Prop :=
  match x, y with
  | S754_zero _, S754_zero _ => True
  | _, _ => x = y
  end.

(** The scenario of the specification: lensMass = 5.0, sourceRadius = 8, no
    planet (and the default distance factor 0.5). *)
Definition scenario : sidebar :=
  {| lens_mass := of_Z 5;
     lens_dist_factor := S754_finite false 4503599627370496 (-53);
     has_planet := false;
     planet_mass_slider := S754_zero false;
     planet_orbit_dist_slider := 0;
     planet_orbit_speed_slider := S754_zero false;
     source_radius := 8 |}.

(** Stands in for [np.cos] and [np.sin] in runs without a planet, whose
    light curve does not depend on them. *)
Definition no_trig (_ : f64) : f64 := S754_nan.

(** [1e200], i.e. 0x1.4e718d7d7625ap+664. *)
Definition lit_1e200 : f64 := S754_finite false 5883593420661338 612.

(* ================================================================== *)
(** * Definitions used by the proofs about rounding *)

(** [p * 2^k] for [k >= 0]. *)
Definition pshl (p : positive) (k : Z) : positive :=
  match k with Zpos n => Pos.iter xO p n | _ => p end.

(** The float of an integer below [2^53] in magnitude: its bits, shifted to
    53 digits. *)
Definition int_float (s : bool) (w : positive) : f64 :=
  let d := Z.pos (digits2_pos w) in
  S754_finite s (pshl w (53 - d)) (d - 53).

(** The last step count at which the lens position is still exact. *)
Definition exact_steps : N := 9007199254741192.

(* ================================================================== *)
(** * The rest of the script *)

(** Python's [min(a, b)] on two floats: [b] when [b < a], else [a]. *)
Definition py_min (a b : f64) : f64 := if (b <? a)%f64 then b else a.

(** Line 238: the brightness of the source star on a 0-1 scale, capped at
    a magnification of 15. *)
Definition norm_mag (total : f64) : f64 :=
  py_min lit_1_0 ((total - of_Z 1) / of_Z 14)%f64.

(** The three buttons of the sidebar (lines 146-157).  The callback of
    Reset and the handlers of Start and Pause run before the loop. *)
Inductive button := StartButton | ResetButton | PauseButton.

Definition press (b : button) (s : session_state) : session_state :=
  match b with
  | StartButton => press_start s
  | ResetButton => reset_simulation s
  | PauseButton => press_pause s
  end.

(** Lines 318-322: the message under the plots once the loop is over. *)
Inductive info_message := PausedOrFinished | AdjustAndStart.

Definition final_info (s : session_state) : option info_message :=
  if is_running s then None
  else Some (if 0 <? time_step s then PausedOrFinished else AdjustAndStart).

Section Script.

Variables np_cos np_sin : f64 -> f64.
Variable c : sidebar.

(** Line 179: [while st.session_state.is_running], with [fuel] bounding the
    number of iterations; [None] when the fuel runs out first. *)
Fixpoint while_running (fuel : nat) (s : session_state)
  : option session_state :=
  if is_running s then
    match fuel with
    | O => None
    | S fuel' => while_running fuel' (loop_body np_cos np_sin c s)
    end
  else Some s.

(** One execution of the script, left to run to the end: the button
    pressed, if any, then the loop. *)
Definition script_run (fuel : nat) (b : option button) (s : session_state)
  : option session_state :=
  while_running fuel (match b with Some b => press b s | None => s end).

End Script.

(* ================================================================== *)
(** * Passes cut short *)

Section Cuts.

Variables np_cos np_sin : f64 -> f64.

(** Streamlit abandons the running script at its next widget or drawing
    call when the user presses a button or moves a slider, and runs it
    again from the top.  In the loop body these calls are at lines 276-306:
    after the sample is appended (line 218) and before the time step is
    incremented (line 309) and the end of the run is tested (line 310).  A
    pass cut short has advanced the lens and recorded its sample, nothing
    more; the press that caused it is applied by the rerun.  The one call
    left, [st.toast] at line 312, comes after every write of the pass: a
    pass cut there has run to its end. *)
Definition cut_body (c : sidebar) (s : session_state) : session_state :=
  let x := (lens_pos_x s + int_truediv SIM_WIDTH TIME_STEPS)%f64 in
  let f := compute_frame np_cos np_sin c x (time_step s) in
  {| is_running := is_running s;
     time_step := time_step s;
     light_curve_data :=
       light_curve_data s ++ [(time_step s, total_magnification f)];
     lens_pos_x := x |}.

Definition cut_step (c : sidebar) (s : session_state) : session_state :=
  if is_running s then cut_body c s else s.

(** What happens to a session: an event of the engine taken as a whole (a
    press, or a pass that runs to its end), or a pass cut short. *)
Inductive script_event := Atomic (e : event) | Cut.

(** Every execution of the script reads the sidebar again (lines 115-142),
    so each event comes with the values the controls have when it
    happens. *)
Definition script_step (s : session_state) (ce : sidebar * script_event)
  : session_state :=
  match snd ce with
  | Atomic e => apply_event np_cos np_sin (fst ce) s e
  | Cut => cut_step (fst ce) s
  end.

Definition replay (s : session_state) (tr : list (sidebar * script_event))
  : session_state :=
  fold_left script_step tr s.

(** A pass of the loop that was begun: whether it was cut short, and the
    controls it ran with. *)
Record pass := mk_pass {
  cut_short : bool;
  controls : sidebar
}.

(** The passes begun since the most recent reset, in order. *)
Definition log_event (acc : session_state * list pass)
  (ce : sidebar * script_event) : session_state * list pass :=
  let '(s, log) := acc in
  match snd ce with
  | Atomic Reset => (reset_simulation s, [])
  | Atomic Step =>
      (step np_cos np_sin (fst ce) s,
       if is_running s then log ++ [mk_pass false (fst ce)] else log)
  | Atomic e => (apply_event np_cos np_sin (fst ce) s e, log)
  | Cut =>
      (cut_step (fst ce) s,
       if is_running s then log ++ [mk_pass true (fst ce)] else log)
  end.

Definition replay_logging (s : session_state)
  (tr : list (sidebar * script_event)) : session_state * list pass :=
  fold_left log_event tr (s, []).

(** How many of the passes were cut short. *)
Definition cuts (log : list pass) : nat :=
  length (filter cut_short log).

(** The time step the k-th pass finds, and records: one per pass that ran
    to its end before it. *)
Definition sample_time (log : list pass) (k : nat) : Z :=
  Z.of_nat (k - 1) - Z.of_nat (cuts (firstn (k - 1) log)).

(** What every reachable session satisfies, for the passes logged. *)
Definition session_invariant (s : session_state) (log : list pass) : Prop :=
  length (light_curve_data s) = length log /\
  time_step s = Z.of_nat (length log) - Z.of_nat (cuts log) /\
  ((N.of_nat (length log) <= exact_steps)%N ->
   lens_pos_x s = of_Z (Z.of_nat (length log) - 200)) /\
  (forall k, (1 <= k <= length log)%nat ->
     option_map fst (nth_error (light_curve_data s) (k - 1))
     = Some (sample_time log k)) /\
  (forall k p, (1 <= k)%nat -> nth_error log (k - 1) = Some p ->
     (N.of_nat k <= exact_steps)%N ->
     option_map snd (nth_error (light_curve_data s) (k - 1))
     = Some (total_magnification
               (compute_frame np_cos np_sin (controls p)
                  (of_Z (Z.of_nat k - 200)) (sample_time log k)))).

End Cuts.

(** Start, two whole passes, and a press on Pause that cuts the third. *)
Definition paused_in_third_pass : list (sidebar * script_event) :=
  map (pair scenario)
      [Atomic Start; Atomic Step; Atomic Step; Cut; Atomic Pause].

(** The same session resumed for two more passes. *)
Definition paused_and_resumed : list (sidebar * script_event) :=
  paused_in_third_pass
  ++ map (pair scenario) [Atomic Start; Atomic Step; Atomic Step].

(** Start and a press on Pause that cuts the first pass. *)
Definition paused_in_first_pass : list (sidebar * script_event) :=
  map (pair scenario) [Atomic Start; Cut; Atomic Pause].

(* ================================================================== *)
(** * Divisions that are checked *)

(** A division that refuses a divisor which is not strictly positive. *)
Definition checked_div (a b : f64) : option f64 :=
  if (of_Z 0 <? b)%f64 then Some (a / b)%f64 else None.

Section Squares.

(** [x**2] on a NumPy float is left to the power function of the C
    library, which need not return the correctly rounded product [x * x];
    [square] stands for whatever it computes. *)
Variable square : f64 -> f64.

(** Lines 89-104 with [square] for [**2]. *)
Definition calculate_magnification_with
  (u source_radius einstein_radius : f64) : f64 :=
  let rho := (source_radius / (einstein_radius + epsilon))%f64 in
  if (u <=? rho)%f64 then
    if (rho <? epsilon)%f64 then
      ((square u + of_Z 2) / ((u + epsilon) * sqrt (square u + of_Z 4)))%f64
    else
      let u_calc := rho in
      ((square u_calc + of_Z 2)
       / (u_calc * sqrt (square u_calc + of_Z 4)))%f64
  else ((square u + of_Z 2) / (u * sqrt (square u + of_Z 4)))%f64.

(** Lines 89-104 again, every division checked. *)
Definition calculate_magnification_checked
  (u source_radius einstein_radius : f64) : option f64 :=
  match checked_div source_radius (einstein_radius + epsilon)%f64 with
  | None => None
  | Some rho =>
      if (u <=? rho)%f64 then
        if (rho <? epsilon)%f64 then
          checked_div (square u + of_Z 2)%f64
                      ((u + epsilon) * sqrt (square u + of_Z 4))%f64
        else
          let u_calc := rho in
          checked_div (square u_calc + of_Z 2)%f64
                      (u_calc * sqrt (square u_calc + of_Z 4))%f64
      else
        checked_div (square u + of_Z 2)%f64
                    (u * sqrt (square u + of_Z 4))%f64
  end.

End Squares.

(** A float that is [+infinity] or a positive number of at least [M]
    binary digits before the point, that is, at least [2^(M-1)]. *)
Definition magnitude_ge (x : f64) (M : Z) : Prop :=
  match x with
  | S754_infinity false => True
  | S754_finite false m e => M <= Z.pos (digits2_pos m) + e
  | _ => False
  end.

(** A float that is zero, a positive number or [+infinity]. *)
Definition nonneg (x : f64) : Prop :=
  match x with
  | S754_zero _ | S754_finite false _ _ | S754_infinity false => True
  | _ => False
  end.

(* ================================================================== *)
(** * The literals *)

(** Each literal is the binary64 number nearest to the decimal of the
    source: it differs from it by at most half a unit in the last place. *)
Lemma literals_nearest :
  2 * Z.abs (4835703278458517 * 10 ^ 9 - 2 ^ 82) <= 10 ^ 9 /\
  2 * Z.abs (7205759403792794 * 10 - 2 ^ 56) <= 10 /\
  2 * Z.abs (7074237752028440 * 10 ^ 15 - 3141592653589793 * 2 ^ 51)
    <= 10 ^ 15 /\
  2 * Z.abs (5883593420661338 * 2 ^ 612 - 10 ^ 200) <= 2 ^ 612 /\
  lit_1_0 = of_Z 1.
Proof. vm_compute. repeat split; discriminate || reflexivity. Qed.

(* ================================================================== *)
(** * Rounding: integers below [2^53] are exact *)

Lemma iter_xO_value (n p : positive) :
  Z.pos (Pos.iter xO p n) = Z.pos p * 2 ^ Z.pos n.
Proof.
  induction n as [|n IH] using Pos.peano_ind.
  - cbn. lia.
  - rewrite Pos.iter_succ, Pos2Z.inj_xO, IH, Pos2Z.inj_succ, Z.pow_succ_r by lia.
    ring.
Qed.

Lemma pshl_value (p : positive) (k : Z) :
  0 <= k -> Z.pos (pshl p k) = Z.pos p * 2 ^ k.
Proof.
  destruct k as [|n|n]; intros Hk; cbn [pshl].
  - rewrite Z.pow_0_r; lia.
  - apply iter_xO_value.
  - lia.
Qed.

Lemma iter_xO_digits (n p : positive) :
  digits2_pos (Pos.iter xO p n) = (digits2_pos p + n)%positive.
Proof.
  induction n as [|n IH] using Pos.peano_ind.
  - cbn. lia.
  - rewrite Pos.iter_succ. cbn [digits2_pos]. rewrite IH. lia.
Qed.

Lemma pshl_digits (p : positive) (k : Z) :
  0 <= k -> Z.pos (digits2_pos (pshl p k)) = Z.pos (digits2_pos p) + k.
Proof.
  destruct k as [|n|n]; intros Hk; cbn [pshl]; try lia.
  rewrite iter_xO_digits. lia.
Qed.

Lemma iter_pos_iter {A} (f : A -> A) (n : positive) :
  forall x, SpecFloat.iter_pos f n x = Pos.iter f x n.
Proof.
  induction n as [n IH|n IH|]; intros x; cbn.
  - rewrite !IH, !Pos.iter_swap. reflexivity.
  - rewrite !IH. reflexivity.
  - reflexivity.
Qed.

Lemma shr_1_exact (n : positive) :
  forall q, Pos.iter shr_1 (Build_shr_record (Z.pos (Pos.iter xO q n)) false false) n
            = Build_shr_record (Z.pos q) false false.
Proof.
  induction n as [|n IH] using Pos.peano_ind; intros q.
  - reflexivity.
  - rewrite (Pos.iter_succ_r n _ xO q), (Pos.iter_succ n _ shr_1), IH.
    reflexivity.
Qed.

Lemma shr_exact (q : positive) (e n : Z) :
  0 <= n ->
  shr (Build_shr_record (Z.pos (pshl q n)) false false) e n
  = (Build_shr_record (Z.pos q) false false, e + n).
Proof.
  destruct n as [|n|n]; intros Hn; cbn [shr pshl]; try lia.
  - rewrite Z.add_0_r. reflexivity.
  - rewrite iter_pos_iter, shr_1_exact. reflexivity.
Qed.

Lemma pshl_pshl (p : positive) (j k : Z) :
  0 <= j -> 0 <= k -> pshl (pshl p j) k = pshl p (j + k).
Proof.
  intros Hj Hk. apply Pos2Z.inj.
  rewrite !pshl_value, Z.pow_add_r by lia. ring.
Qed.

Lemma shl_align_pshl (m : positive) (e e' : Z) :
  shl_align m e e' = if e' <? e then (pshl m (e - e'), e') else (m, e).
Proof.
  unfold shl_align.
  destruct (Z.ltb_spec e' e) as [H|H].
  - destruct (e' - e) as [|d|d] eqn:E; try lia.
    replace (e - e') with (Z.pos d) by lia. reflexivity.
  - destruct (e' - e) as [|d|d] eqn:E; try lia; reflexivity.
Qed.

(** A number [w * 2^(e+k)] with at most 53 significant bits and an
    exponent in range is its own rounding. *)
Lemma binary_round_exact (s : bool) (w : positive) (k e : Z) :
  let d := Z.pos (digits2_pos w) in
  let E := e + k + d - 53 in
  0 <= k -> d <= 53 -> -1074 <= E <= 971 ->
  binary_round prec emax s (pshl w k) e = S754_finite s (pshl w (53 - d)) E.
Proof.
  intros d E Hk Hd HE.
  unfold binary_round.
  assert (Hfexp : fexp prec emax (Z.pos (digits2_pos (pshl w k)) + e) = E).
  { rewrite pshl_digits by lia. unfold fexp, SpecFloat.emin, prec, emax.
    fold d. lia. }
  rewrite Hfexp, shl_align_pshl.
  assert (Hfin : binary_round_aux prec emax s (Z.pos (pshl w (53 - d))) E loc_Exact
                 = S754_finite s (pshl w (53 - d)) E).
  { unfold binary_round_aux, shr_fexp. cbn [Zdigits2 shr_record_of_loc].
    rewrite pshl_digits by lia. fold d.
    replace (fexp prec emax (d + (53 - d) + E) - E) with 0
      by (unfold fexp, SpecFloat.emin, prec, emax; lia).
    cbn [shr shr_m loc_of_shr_record round_nearest_even Zdigits2 shr_record_of_loc].
    rewrite pshl_digits by lia. fold d.
    replace (fexp prec emax (d + (53 - d) + E) - E) with 0
      by (unfold fexp, SpecFloat.emin, prec, emax; lia).
    cbn [shr shr_m].
    replace (E <=? emax - prec) with true
      by (symmetry; apply Z.leb_le; unfold emax, prec; lia).
    reflexivity. }
  destruct (Z.ltb_spec E e) as [H|H].
  - rewrite pshl_pshl by lia.
    replace (k + (e - E)) with (53 - d) by (unfold E; lia).
    exact Hfin.
  - unfold binary_round_aux, shr_fexp. cbn [Zdigits2 shr_record_of_loc].
    rewrite Hfexp.
    replace (pshl w k) with (pshl (pshl w (53 - d)) (E - e))
      by (rewrite pshl_pshl by lia; f_equal; unfold E; lia).
    rewrite shr_exact by lia.
    replace (e + (E - e)) with E by lia.
    cbn [shr_m loc_of_shr_record round_nearest_even Zdigits2 shr_record_of_loc].
    rewrite pshl_digits by lia. fold d.
    replace (fexp prec emax (d + (53 - d) + E) - E) with 0
      by (unfold fexp, SpecFloat.emin, prec, emax; lia).
    cbn [shr shr_m].
    replace (E <=? emax - prec) with true
      by (symmetry; apply Z.leb_le; unfold emax, prec; lia).
    reflexivity.
Qed.

Lemma digits2_bounds (w : positive) :
  2 ^ (Z.pos (digits2_pos w) - 1) <= Z.pos w < 2 ^ Z.pos (digits2_pos w).
Proof.
  induction w as [w IH|w IH|]; cbn [digits2_pos].
  - rewrite Pos2Z.inj_succ. change (Z.pos w~1) with (2 * Z.pos w + 1).
    replace (Z.succ (Z.pos (digits2_pos w)) - 1)
      with (Z.succ (Z.pos (digits2_pos w) - 1)) by lia.
    rewrite !Z.pow_succ_r by lia.
    remember (2 ^ (Z.pos (digits2_pos w) - 1)) as A.
    remember (2 ^ Z.pos (digits2_pos w)) as B. lia.
  - rewrite Pos2Z.inj_succ. change (Z.pos w~0) with (2 * Z.pos w).
    replace (Z.succ (Z.pos (digits2_pos w)) - 1)
      with (Z.succ (Z.pos (digits2_pos w) - 1)) by lia.
    rewrite !Z.pow_succ_r by lia.
    remember (2 ^ (Z.pos (digits2_pos w) - 1)) as A.
    remember (2 ^ Z.pos (digits2_pos w)) as B. lia.
  - cbn. lia.
Qed.

Lemma digits2_le_53 (w : positive) :
  Z.pos w < 2 ^ 53 -> Z.pos (digits2_pos w) <= 53.
Proof.
  intros H. destruct (digits2_bounds w) as [Hlo _].
  destruct (Z.le_gt_cases (Z.pos (digits2_pos w)) 53) as [|Hgt]; [assumption|].
  assert (2 ^ 53 <= 2 ^ (Z.pos (digits2_pos w) - 1))
    by (apply Z.pow_le_mono_r; lia).
  lia.
Qed.

Lemma binary_round_scaled (s : bool) (w : positive) (k : Z) :
  0 <= k -> Z.pos w < 2 ^ 53 ->
  binary_round prec emax s (pshl w k) (- k) = int_float s w.
Proof.
  intros Hk Hw. pose proof (digits2_le_53 w Hw) as Hd.
  rewrite binary_round_exact by lia.
  unfold int_float. f_equal. lia.
Qed.

Lemma of_Z_int_float (s : bool) (w : positive) :
  Z.pos w < 2 ^ 53 -> of_Z (cond_Zopp s (Z.pos w)) = int_float s w.
Proof.
  intros Hw. pose proof (binary_round_scaled s w 0 ltac:(lia) Hw) as H.
  destruct s; exact H.
Qed.

Lemma binary_normalize_scaled (v k : Z) :
  0 <= k -> Z.abs v < 2 ^ 53 ->
  binary_normalize prec emax (v * 2 ^ k) (- k) false = of_Z v.
Proof.
  intros Hk Hv. destruct v as [|w|w].
  - reflexivity.
  - replace (Z.pos w * 2 ^ k) with (Z.pos (pshl w k))
      by (apply pshl_value; lia).
    cbn [binary_normalize].
    rewrite binary_round_scaled by lia.
    symmetry. apply (of_Z_int_float false). lia.
  - replace (Z.neg w * 2 ^ k) with (Z.neg (pshl w k))
      by (rewrite <- !Pos2Z.opp_pos, pshl_value by lia; ring).
    cbn [binary_normalize].
    rewrite binary_round_scaled by lia.
    symmetry. apply (of_Z_int_float true). lia.
Qed.

Lemma shl_align_fst_value (m : positive) (e e' : Z) :
  e' <= e -> Z.pos (fst (shl_align m e e')) = Z.pos m * 2 ^ (e - e').
Proof.
  intros H. rewrite shl_align_pshl.
  destruct (Z.ltb_spec e' e) as [Hlt|Hge]; cbn [fst].
  - apply pshl_value. lia.
  - replace (e - e') with 0 by lia. rewrite Z.pow_0_r. lia.
Qed.

Lemma Z_sign_split (a : Z) :
  a <> 0 -> exists s w, a = cond_Zopp s (Z.pos w).
Proof.
  destruct a as [|w|w]; intros H; [congruence| |].
  - exists false, w. reflexivity.
  - exists true, w. reflexivity.
Qed.

Lemma cond_Zopp_mul (s : bool) (x y : Z) :
  cond_Zopp s (x * y) = cond_Zopp s x * y.
Proof. destruct s; cbn; ring. Qed.

Lemma cond_Zopp_abs (s : bool) (w : positive) :
  Z.abs (cond_Zopp s (Z.pos w)) = Z.pos w.
Proof. destruct s; reflexivity. Qed.

Lemma of_Z_cases (a : Z) :
  Z.abs a < 2 ^ 53 ->
  (a = 0 /\ of_Z a = S754_zero false) \/
  (exists s w, a = cond_Zopp s (Z.pos w) /\ Z.pos w < 2 ^ 53 /\
               of_Z a = int_float s w).
Proof.
  intros Ha. destruct (Z.eq_dec a 0) as [->|Na].
  - left. split; reflexivity.
  - right. destruct (Z_sign_split a Na) as (s & w & ->).
    rewrite cond_Zopp_abs in Ha.
    exists s, w. split; [reflexivity|]. split; [assumption|].
    apply of_Z_int_float; assumption.
Qed.

(** Addition of integers is exact while everything stays below [2^53]. *)
Lemma add_of_Z (a b : Z) :
  Z.abs a < 2 ^ 53 -> Z.abs b < 2 ^ 53 -> Z.abs (a + b) < 2 ^ 53 ->
  add (of_Z a) (of_Z b) = of_Z (a + b).
Proof.
  intros Ha Hb Hab.
  destruct (of_Z_cases a Ha) as [[-> Ea]|(sa & wa & Ea & Hwa & Fa)];
    destruct (of_Z_cases b Hb) as [[-> Eb]|(sb & wb & Eb & Hwb & Fb)].
  - reflexivity.
  - rewrite Z.add_0_l, Ea, Fb. reflexivity.
  - rewrite Z.add_0_r, Eb, Fa. reflexivity.
  - rewrite Fa, Fb. unfold int_float, add. cbn [SFadd].
    set (da := Z.pos (digits2_pos wa)).
    set (db := Z.pos (digits2_pos wb)).
    pose proof (digits2_le_53 wa Hwa) as Hda. fold da in Hda.
    pose proof (digits2_le_53 wb Hwb) as Hdb. fold db in Hdb.
    assert (0 < da) by (unfold da; lia).
    assert (0 < db) by (unfold db; lia).
    set (ez := Z.min (da - 53) (db - 53)).
    rewrite !shl_align_fst_value by (unfold ez; lia).
    rewrite !pshl_value by lia.
    rewrite <- !Z.mul_assoc, <- !Z.pow_add_r by lia.
    replace (53 - da + (da - 53 - ez)) with (- ez) by lia.
    replace (53 - db + (db - 53 - ez)) with (- ez) by lia.
    rewrite !cond_Zopp_mul, <- Z.mul_add_distr_r, <- Ea, <- Eb.
    replace ez with (- - ez) at 2 by lia.
    apply binary_normalize_scaled; [unfold ez; lia | assumption].
Qed.

Lemma of_Z_int_value (a : Z) :
  Z.abs a < 2 ^ 53 -> int_value (of_Z a) = Some a.
Proof.
  intros Ha.
  destruct (of_Z_cases a Ha) as [[-> Ea]|(s & w & Ea & Hw & Fa)].
  - reflexivity.
  - rewrite Fa. unfold int_float.
    pose proof (digits2_le_53 w Hw) as Hd.
    set (d := Z.pos (digits2_pos w)) in *.
    assert (0 < d) by (unfold d; lia).
    destruct (d - 53) as [|k|k] eqn:Ek; try lia; cbn [int_value].
    + replace (53 - d) with 0 by lia. cbn [pshl].
      rewrite Z.pow_0_r, Z.mul_1_r. congruence.
    + replace (53 - d) with (Z.pos k) by lia.
      rewrite pshl_value by lia.
      rewrite Z.mod_mul by lia. cbn [Z.eqb].
      rewrite Z.div_mul by lia. congruence.
Qed.

(* ================================================================== *)
(** * The lens position *)

Lemma closed_form_eq (t : Z) : closed_form t = t - 200.
Proof.
  unfold closed_form, SIM_WIDTH, TIME_STEPS.
  rewrite Z.div_mul by lia. change (- (400) / 2) with (-200). lia.
Qed.

Lemma initial_lens_pos_x : lens_pos_x initial_state = of_Z (-200).
Proof. reflexivity. Qed.

Lemma lens_increment : int_truediv SIM_WIDTH TIME_STEPS = of_Z 1.
Proof. reflexivity. Qed.

(** Adding the increment 1.0 to an integer position is exact up to
    [2^53]. *)
Lemma add_one_exact (z : Z) :
  -200 <= z < 9007199254740992 ->
  (of_Z z + of_Z 1)%f64 = of_Z (z + 1).
Proof.
  intros Hz. destruct (Z.eq_dec z 9007199254740991) as [->|NE].
  - reflexivity.
  - apply add_of_Z; change (2 ^ 53) with 9007199254740992; lia.
Qed.

(** The exactness rests on the increment being 1.0: ten additions of
    [1/10], for one, do not reach 1.0. *)
Lemma repeated_addition_of_a_tenth_drifts :
  N.iter 10 (fun x => (x + int_truediv 1 10)%f64) (of_Z 0) <> of_Z 1.
Proof. vm_compute. discriminate. Qed.

(** At [2^53] it is not: the sum rounds back to [2^53]. *)
Lemma add_one_stalls :
  (of_Z 9007199254740992 + of_Z 1)%f64 = of_Z 9007199254740992.
Proof. reflexivity. Qed.

Section LensPosition.

Variables np_cos np_sin : f64 -> f64.
Variable c : sidebar.

Local Abbreviation resume := (resume_step np_cos np_sin c).
Local Abbreviation after := (after_steps np_cos np_sin c).

Lemma lens_pos_x_resume_step (s : session_state) :
  lens_pos_x (resume s) = (lens_pos_x s + of_Z 1)%f64.
Proof. reflexivity. Qed.

Lemma time_step_resume_step (s : session_state) :
  time_step (resume s) = time_step s + 1.
Proof. reflexivity. Qed.

Lemma after_steps_succ (t : N) :
  after (N.succ t) = resume (after t).
Proof. unfold after_steps. apply N.iter_succ. Qed.

Lemma time_step_after_steps (t : N) :
  time_step (after t) = Z.of_N t.
Proof.
  induction t as [|t IH] using N.peano_ind.
  - reflexivity.
  - rewrite after_steps_succ, time_step_resume_step, IH. lia.
Qed.

(** Up to [exact_steps] iterations the position is the float of
    [t - 200]. *)
Lemma lens_pos_x_after_steps (t : N) :
  (t <= exact_steps)%N ->
  lens_pos_x (after t) = of_Z (Z.of_N t - 200).
Proof.
  unfold exact_steps.
  induction t as [|t IH] using N.peano_ind; intros Ht.
  - reflexivity.
  - rewrite after_steps_succ, lens_pos_x_resume_step, IH by lia.
    rewrite add_one_exact by lia. f_equal. lia.
Qed.

End LensPosition.

(* ================================================================== *)
(** * Comparison of floats *)

Lemma compare_antisym (x y : f64) (o : comparison) :
  SFcompare x y = Some o -> SFcompare y x = Some (CompOpp o).
Proof.
  destruct x as [sx|sx| |sx mx ex], y as [sy|sy| |sy my ey]; cbn;
    try discriminate;
    try (destruct sx; intros [= <-]; reflexivity);
    try (destruct sy; intros [= <-]; reflexivity);
    try (intros [= <-]; reflexivity).
  - destruct sx, sy; intros [= <-]; reflexivity.
  - fold (Pos.compare mx my). fold (Pos.compare my mx).
    rewrite (Z.compare_antisym ex ey), (Pos.compare_antisym mx my).
    destruct sx, sy; intros [= <-]; try reflexivity;
      destruct (ex ?= ey); cbn; try reflexivity;
      destruct (mx ?= my)%positive; reflexivity.
Qed.

Lemma compare_defined (x y : f64) :
  is_nan x = false -> is_nan y = false -> exists o, SFcompare x y = Some o.
Proof.
  destruct x, y; cbn; intros Hx Hy; try discriminate; eexists; reflexivity.
Qed.

Lemma compare_refl (x : f64) : is_nan x = false -> SFcompare x x = Some Eq.
Proof.
  destruct x as [s|s| |s m e]; cbn; intros H; try discriminate.
  - reflexivity.
  - destruct s; reflexivity.
  - fold (Pos.compare m m).
    rewrite Z.compare_refl, Pos.compare_refl. destruct s; reflexivity.
Qed.

Lemma leb_not_nan (x y : f64) :
  (x <=? y)%f64 = true -> is_nan x = false /\ is_nan y = false.
Proof. destruct x, y; cbn; intros H; try discriminate; split; reflexivity. Qed.

Lemma ltb_not_nan (x y : f64) :
  (x <? y)%f64 = true -> is_nan x = false /\ is_nan y = false.
Proof. destruct x, y; cbn; intros H; try discriminate; split; reflexivity. Qed.

Lemma leb_refl (x : f64) : is_nan x = false -> (x <=? x)%f64 = true.
Proof.
  intros H. unfold leb, SFleb. rewrite compare_refl by assumption. reflexivity.
Qed.

Lemma ltb_leb_false (x y : f64) :
  (x <? y)%f64 = true -> (y <=? x)%f64 = false.
Proof.
  unfold ltb, leb, SFltb, SFleb.
  destruct (SFcompare x y) as [[| |]|] eqn:E; try discriminate.
  rewrite (compare_antisym _ _ _ E). reflexivity.
Qed.

Lemma leb_ltb_false (x y : f64) :
  (x <=? y)%f64 = true -> (y <? x)%f64 = false.
Proof.
  unfold ltb, leb, SFltb, SFleb.
  destruct (SFcompare x y) as [[| |]|] eqn:E; try discriminate;
    rewrite (compare_antisym _ _ _ E); reflexivity.
Qed.

Lemma leb_false_ltb (x y : f64) :
  is_nan x = false -> is_nan y = false ->
  (x <=? y)%f64 = false -> (y <? x)%f64 = true.
Proof.
  intros Hx Hy. unfold ltb, leb, SFltb, SFleb.
  destruct (compare_defined x y Hx Hy) as [o E]. rewrite E.
  rewrite (compare_antisym _ _ _ E). destruct o; cbn; congruence.
Qed.

Lemma ltb_false_leb (x y : f64) :
  is_nan x = false -> is_nan y = false ->
  (x <? y)%f64 = false -> (y <=? x)%f64 = true.
Proof.
  intros Hx Hy. unfold ltb, leb, SFltb, SFleb.
  destruct (compare_defined x y Hx Hy) as [o E]. rewrite E.
  rewrite (compare_antisym _ _ _ E). destruct o; cbn; congruence.
Qed.

(* ================================================================== *)
(** * Rounding never produces NaN *)

Lemma shr_1_nonneg (r : shr_record) : 0 <= shr_m r -> 0 <= shr_m (shr_1 r).
Proof.
  destruct r as [m r s]. cbn [shr_m]. intros H.
  destruct m as [|[p|p|]|p]; cbn; lia.
Qed.

Lemma shr_nonneg (r : shr_record) (e n : Z) :
  0 <= shr_m r -> 0 <= shr_m (fst (shr r e n)).
Proof.
  intros H. destruct n as [|p|p]; cbn [shr fst]; try assumption.
  rewrite iter_pos_iter.
  apply Pos.iter_invariant; [apply shr_1_nonneg | assumption].
Qed.

Lemma shr_fexp_nonneg (m e : Z) (l : location) :
  0 <= m -> 0 <= shr_m (fst (shr_fexp prec emax m e l)).
Proof.
  intros H. unfold shr_fexp. apply shr_nonneg.
  destruct l as [|[| |]]; exact H.
Qed.

Lemma round_nearest_even_nonneg (m : Z) (l : location) :
  0 <= m -> 0 <= round_nearest_even m l.
Proof.
  intros H. destruct l as [|[| |]]; cbn; try destruct (Z.even m); lia.
Qed.

Lemma binary_round_aux_not_nan (s : bool) (m e : Z) (l : location) :
  0 <= m -> is_nan (binary_round_aux prec emax s m e l) = false.
Proof.
  intros H. unfold binary_round_aux.
  pose proof (shr_fexp_nonneg m e l H) as H1.
  destruct (shr_fexp prec emax m e l) as [mrs' e']. cbn [fst] in H1.
  pose proof (shr_fexp_nonneg _ e' loc_Exact
                (round_nearest_even_nonneg _ (loc_of_shr_record mrs') H1)) as H2.
  destruct (shr_fexp prec emax _ e' loc_Exact) as [mrs'' e'']. cbn [fst] in H2.
  destruct (shr_m mrs'') as [|p|p]; try lia; try reflexivity.
  destruct (e'' <=? emax - prec); reflexivity.
Qed.

Lemma binary_normalize_not_nan (m e : Z) (sz : bool) :
  is_nan (binary_normalize prec emax m e sz) = false.
Proof.
  destruct m as [|p|p]; cbn [binary_normalize]; try reflexivity;
    unfold binary_round;
    destruct (shl_align _ _ _) as [mz ez];
    apply binary_round_aux_not_nan; lia.
Qed.

Lemma add_finite_not_nan (x y : f64) :
  is_finite x = true -> is_finite y = true -> is_nan (x + y)%f64 = false.
Proof.
  destruct x as [sx|sx| |sx mx ex], y as [sy|sy| |sy my ey];
    cbn [is_finite]; intros Hx Hy; try discriminate; unfold add; cbn [SFadd];
    try reflexivity.
  - destruct sx, sy; reflexivity.
  - apply binary_normalize_not_nan.
Qed.

Lemma div_core_nonneg (m1 m2 : positive) (e1 e2 : Z) :
  0 <= fst (fst (SFdiv_core_binary prec emax (Z.pos m1) e1 (Z.pos m2) e2)).
Proof.
  unfold SFdiv_core_binary.
  set (s := _ - _ - _).
  set (m' := match s with Z.pos _ => _ | Z0 => _ | Z.neg _ => _ end).
  assert (Hm : 0 <= m').
  { unfold m'. destruct s; try lia. apply Z.shiftl_nonneg. lia. }
  pose proof (Z.div_pos m' (Z.pos m2) Hm ltac:(lia)) as Hq.
  unfold Z.div in Hq.
  destruct (Z.div_eucl m' (Z.pos m2)) as [q r]. exact Hq.
Qed.

Lemma div_finite_not_nan (x y : f64) :
  (of_Z 0 <? x)%f64 = true -> is_finite x = true -> is_nan y = false ->
  is_nan (x / y)%f64 = false.
Proof.
  destruct x as [sx|sx| |sx mx ex]; cbn; intros Hpos Hx; try discriminate.
  destruct y as [sy|sy| |sy my ey]; cbn [is_nan]; intros Hy;
    try discriminate; unfold div; cbn [SFdiv]; try reflexivity.
  pose proof (div_core_nonneg mx my ex ey) as Hq.
  destruct (SFdiv_core_binary _ _ _ _ _ _) as [[mz ez] lz].
  apply binary_round_aux_not_nan. exact Hq.
Qed.

Lemma rho_not_nan (r e : f64) :
  is_finite r = true -> is_finite e = true -> (of_Z 0 <? r)%f64 = true ->
  is_nan (rho_of r e) = false.
Proof.
  intros Hr He Hpos. unfold rho_of.
  apply div_finite_not_nan; try assumption.
  apply add_finite_not_nan; [assumption | reflexivity].
Qed.

(* ================================================================== *)
(** * The magnification function *)

Lemma calculate_magnification_transit (u r e : f64) :
  (u <=? rho_of r e)%f64 = true -> (epsilon <=? rho_of r e)%f64 = true ->
  calculate_magnification u r e = point_lens (rho_of r e).
Proof.
  intros Hu Hrho. unfold calculate_magnification.
  rewrite Hu, (leb_ltb_false _ _ Hrho). reflexivity.
Qed.

Lemma calculate_magnification_point (u r e : f64) :
  (u <=? rho_of r e)%f64 = true -> (rho_of r e <? epsilon)%f64 = true ->
  calculate_magnification u r e = point_lens_guarded u.
Proof.
  intros Hu Hrho. unfold calculate_magnification.
  rewrite Hu, Hrho. reflexivity.
Qed.

Lemma calculate_magnification_standard (u r e : f64) :
  (rho_of r e <? u)%f64 = true ->
  calculate_magnification u r e = point_lens u.
Proof.
  intros Hu. unfold calculate_magnification.
  rewrite (ltb_leb_false _ _ Hu). reflexivity.
Qed.

(** C4.  On the domain [u >= 0], [sourceRadius > 0], [einsteinRadius >= 0]
    the function returns what the reference definition prescribes: one of
    its three cases applies, and the value is that case's. *)
Theorem calculate_magnification_meets_reference (u r e : f64) :
  in_domain u r e ->
  magnification_ref u r e (calculate_magnification u r e).
Proof.
  intros (Hu & Hr & He & Hu0 & Hr0 & He0).
  pose proof (rho_not_nan r e Hr He Hr0) as Hrho.
  destruct (leb_not_nan _ _ Hu0) as [_ Hun].
  destruct (u <=? rho_of r e)%f64 eqn:Hle.
  - destruct (rho_of r e <? epsilon)%f64 eqn:Hlt.
    + rewrite calculate_magnification_point by assumption.
      apply ref_point_source; assumption.
    + assert (Hge : (epsilon <=? rho_of r e)%f64 = true)
        by (apply ltb_false_leb; [assumption | reflexivity | assumption]).
      rewrite calculate_magnification_transit by assumption.
      apply ref_flat_top; assumption.
  - assert (Hgt : (rho_of r e <? u)%f64 = true)
      by (apply leb_false_ltb; assumption).
    rewrite calculate_magnification_standard by assumption.
    apply ref_standard; assumption.
Qed.

Lemma calculate_magnification_meets_reference_witness :
  in_domain (of_Z 0) (of_Z 8) (einstein_radius (of_Z 5)) /\
  magnification_ref (of_Z 0) (of_Z 8) (einstein_radius (of_Z 5))
    (calculate_magnification (of_Z 0) (of_Z 8) (einstein_radius (of_Z 5))).
Proof.
  assert (H : in_domain (of_Z 0) (of_Z 8) (einstein_radius (of_Z 5)))
    by (repeat split; reflexivity).
  split; [exact H|].
  exact (calculate_magnification_meets_reference _ _ _ H).
Defined.

(** C5.  Where [rho >= epsilon], the transiting branch returns the
    point-lens formula at [rho], in particular at [u = rho]; the standard
    branch returns the same formula at its own argument.  So at the boundary
    [u = rho] the transiting value is the value of the standard formula. *)
Theorem calculate_magnification_continuous_at_rho (r e : f64) :
  (epsilon <=? rho_of r e)%f64 = true ->
  (forall u, (u <=? rho_of r e)%f64 = true ->
             calculate_magnification u r e = point_lens (rho_of r e)) /\
  calculate_magnification (rho_of r e) r e = point_lens (rho_of r e) /\
  (forall u, (rho_of r e <? u)%f64 = true ->
             calculate_magnification u r e = point_lens u).
Proof.
  intros Hrho. split; [|split].
  - intros u Hu. apply calculate_magnification_transit; assumption.
  - apply calculate_magnification_transit; [|assumption].
    apply leb_refl. apply (leb_not_nan _ _ Hrho).
  - intros u Hu. apply calculate_magnification_standard. assumption.
Qed.

Lemma calculate_magnification_continuous_at_rho_witness :
  (epsilon <=? rho_of (of_Z 8) (einstein_radius (of_Z 5)))%f64 = true /\
  calculate_magnification (rho_of (of_Z 8) (einstein_radius (of_Z 5)))
                          (of_Z 8) (einstein_radius (of_Z 5))
  = point_lens (rho_of (of_Z 8) (einstein_radius (of_Z 5))).
Proof.
  assert (H : (epsilon <=? rho_of (of_Z 8) (einstein_radius (of_Z 5)))%f64
              = true) by reflexivity.
  split; [exact H|].
  exact (proj1 (proj2 (calculate_magnification_continuous_at_rho _ _ H))).
Defined.

(** C6 (as stated, refuted).  Two inputs of the domain, with sourceRadius 8
    and the Einstein radius of mass 5: at [u = 1e200] the squares overflow
    to infinity and the quotient of two infinities is NaN; at [u = 19618],
    in the standard branch, the quotient rounds to [1 - 2^-53], below 1. *)
Lemma magnification_not_finite_nor_above_one :
  (in_domain lit_1e200 (of_Z 8) (einstein_radius (of_Z 5)) /\
   is_finite (calculate_magnification lit_1e200 (of_Z 8)
                                      (einstein_radius (of_Z 5))) = false) /\
  (in_domain (of_Z 19618) (of_Z 8) (einstein_radius (of_Z 5)) /\
   (rho_of (of_Z 8) (einstein_radius (of_Z 5)) <? of_Z 19618)%f64 = true /\
   (calculate_magnification (of_Z 19618) (of_Z 8) (einstein_radius (of_Z 5))
    <? of_Z 1)%f64 = true).
Proof. repeat split; reflexivity. Qed.

(* ================================================================== *)
(** * The engine: buttons, loop body, light curve *)

Lemma add_zero_same_value (x : f64) : same_value (x + of_Z 0)%f64 x.
Proof. destruct x as [[|]|[|]| |s m e]; cbn; reflexivity || exact I. Qed.

(** C9.  After any sequence of start, pause and step operations, a reset
    gives the state of a freshly initialised session: time step 0, lens at
    [-simWidth/2], empty light curve, not running. *)
Theorem reset_restores_initial_state
  (np_cos np_sin : f64 -> f64) (c : sidebar) (tr : list event) :
  let s := apply_event np_cos np_sin c
             (run np_cos np_sin c initial_state tr) Reset in
  s = initial_state /\
  time_step s = 0 /\
  lens_pos_x s = int_truediv (- SIM_WIDTH) 2 /\
  int_value (lens_pos_x s) = Some (- SIM_WIDTH / 2) /\
  light_curve_data s = [] /\
  is_running s = false.
Proof. cbn. repeat split; reflexivity. Qed.

(** C10.  Start and pause only write the running flag: the time step, the
    lens position and the light curve are left as they were. *)
Theorem start_pause_preserve_progress (s : session_state) :
  (time_step (press_start s) = time_step s /\
   lens_pos_x (press_start s) = lens_pos_x s /\
   light_curve_data (press_start s) = light_curve_data s /\
   is_running (press_start s) = true) /\
  (time_step (press_pause s) = time_step s /\
   lens_pos_x (press_pause s) = lens_pos_x s /\
   light_curve_data (press_pause s) = light_curve_data s /\
   is_running (press_pause s) = false).
Proof.
  split; [repeat split|].
  unfold press_pause. destruct (is_running s) eqn:E; cbn; auto.
Qed.

Section Engine.

Variables np_cos np_sin : f64 -> f64.
Variable c : sidebar.

Local Abbreviation frame_at := (compute_frame np_cos np_sin c).
Local Abbreviation body := (loop_body np_cos np_sin c).
Local Abbreviation resume := (resume_step np_cos np_sin c).
Local Abbreviation after := (after_steps np_cos np_sin c).

Lemma light_curve_loop_body (s : session_state) :
  light_curve_data (body s) =
  light_curve_data s ++
    [(time_step s,
      total_magnification (frame_at (lens_pos_x (body s)) (time_step s)))].
Proof. reflexivity. Qed.

Lemma light_curve_resume_step (s : session_state) :
  light_curve_data (resume s) =
  light_curve_data s ++
    [(time_step s,
      total_magnification (frame_at (lens_pos_x (resume s)) (time_step s)))].
Proof. reflexivity. Qed.

(** C7.  The sample a loop iteration appends is the total magnification of
    its frame; the lens term is [calculate_magnification] at
    [u = |lens_x - source_x| / (15 * sqrt mass)]; with a planet the total
    adds the planet's magnification minus 1, without one it adds 0 and so
    equals the lens term. *)
Theorem total_magnification_composition (s : session_state) :
  let x := lens_pos_x (loop_body np_cos np_sin c s) in
  let f := compute_frame np_cos np_sin c x (time_step s) in
  let r := of_Z (source_radius c) in
  let e_star := (of_Z 15 * sqrt (lens_mass c))%f64 in
  let e_planet := (of_Z 15 * sqrt (planet_mass c))%f64 in
  last (light_curve_data (loop_body np_cos np_sin c s)) (0, S754_nan)
    = (time_step s, total_magnification f) /\
  magnification_star f
    = calculate_magnification (abs (x - of_Z source_pos_x) / e_star)%f64
                              r e_star /\
  if has_planet c then
    total_magnification f
    = (magnification_star f
       + (calculate_magnification
            (abs (frame_planet_pos_x f - of_Z source_pos_x) / e_planet)%f64
            r e_planet
          - lit_1_0))%f64
  else
    total_magnification f = (magnification_star f + of_Z 0)%f64 /\
    same_value (total_magnification f) (magnification_star f).
Proof.
  intros x f r e_star e_planet. split; [|split].
  - rewrite light_curve_loop_body. apply last_last.
  - reflexivity.
  - subst f. unfold compute_frame. cbn [total_magnification magnification_star
      frame_planet_pos_x].
    destruct (has_planet c); [reflexivity|].
    split; [reflexivity | apply add_zero_same_value].
Qed.

Lemma after_steps_S (n : nat) :
  after (N.of_nat (S n)) = resume (after (N.of_nat n)).
Proof. rewrite Nat2N.inj_succ. unfold after_steps. apply N.iter_succ. Qed.

Lemma length_light_curve_after_steps (n : nat) :
  length (light_curve_data (after (N.of_nat n))) = n.
Proof.
  induction n as [|n IH].
  - reflexivity.
  - rewrite after_steps_S, light_curve_resume_step, length_app, IH.
    cbn. lia.
Qed.

Lemma time_step_after_steps_nat (n : nat) :
  time_step (after (N.of_nat n)) = Z.of_nat n.
Proof.
  rewrite time_step_after_steps. lia.
Qed.

(** ** Counting the iterations of a trace *)

Lemma run_counting_run (s : session_state) (n : nat) (tr : list event) :
  fst (fold_left (count_event np_cos np_sin c) tr (s, n))
  = run np_cos np_sin c s tr.
Proof.
  revert s n. induction tr as [|e tr IH]; intros s n; [reflexivity|].
  cbn [fold_left run]. unfold run in IH.
  destruct e; cbn [count_event apply_event]; apply IH.
Qed.

Lemma step_appends_when_running (s : session_state) :
  length (light_curve_data (step np_cos np_sin c s))
  = if is_running s then S (length (light_curve_data s))
    else length (light_curve_data s).
Proof.
  unfold step. destruct (is_running s); [|reflexivity].
  rewrite light_curve_loop_body, length_app. cbn. lia.
Qed.

Lemma count_event_length (s : session_state) (n : nat) (e : event) :
  length (light_curve_data s) = n ->
  length (light_curve_data (fst (count_event np_cos np_sin c (s, n) e)))
  = snd (count_event np_cos np_sin c (s, n) e).
Proof.
  intros H. destruct e; cbn [count_event apply_event fst snd].
  - exact H.
  - unfold press_pause. destruct (is_running s); exact H.
  - reflexivity.
  - rewrite step_appends_when_running. destruct (is_running s); lia.
Qed.

Lemma fold_count_event_length (tr : list event) :
  forall (s : session_state) (n : nat),
  length (light_curve_data s) = n ->
  let r := fold_left (count_event np_cos np_sin c) tr (s, n) in
  length (light_curve_data (fst r)) = snd r.
Proof.
  induction tr as [|e tr IH]; intros s n H; [exact H|].
  cbn [fold_left].
  pose proof (count_event_length s n e H) as H'.
  destruct (count_event np_cos np_sin c (s, n) e) as [s' n'].
  apply IH. exact H'.
Qed.

(** Along any trace the time step counts the iterations since the last
    reset, and the lens position is the float of [count - 200] while the
    count is at most [exact_steps]. *)
Lemma lens_position_along_trace (tr : list event) :
  forall (s : session_state) (n : nat),
  time_step s = Z.of_nat n ->
  ((N.of_nat n <= exact_steps)%N ->
   lens_pos_x s = of_Z (Z.of_nat n - 200)) ->
  let r := fold_left (count_event np_cos np_sin c) tr (s, n) in
  time_step (fst r) = Z.of_nat (snd r) /\
  ((N.of_nat (snd r) <= exact_steps)%N ->
   lens_pos_x (fst r) = of_Z (Z.of_nat (snd r) - 200)).
Proof.
  induction tr as [|e tr IH]; intros s n Ht Hx; [split; assumption|].
  cbn [fold_left]. destruct e; cbn [count_event apply_event].
  - apply IH; assumption.
  - apply IH; unfold press_pause; destruct (is_running s); assumption.
  - apply IH; [reflexivity | intros _; reflexivity].
  - unfold step. destruct (is_running s); [|apply IH; assumption].
    apply IH.
    + cbn [loop_body time_step]. lia.
    + intros Hn. unfold exact_steps in *.
      cbn [loop_body lens_pos_x]. rewrite lens_increment, Hx by lia.
      rewrite add_one_exact by lia. f_equal. lia.
Qed.

End Engine.

(** C3 (as stated, refuted).  The first sample after a reset carries time
    step 0, not 1. *)
Lemma first_sample_carries_zero :
  option_map fst
    (nth_error (light_curve_data (after_steps no_trig no_trig scenario 1)) 0)
  <> Some 1.
Proof. vm_compute. discriminate. Qed.

(* ================================================================== *)
(** * The scenario run *)

(** C2 (as stated, refuted).  After start and exactly 400 steps the lens is
    at +200, which does not exceed [simWidth/2]: the engine is still
    running. *)
Lemma scenario_400_steps_still_running :
  let s := N.iter 400 (step no_trig no_trig scenario)
                  (press_start initial_state) in
  lens_pos_x s = of_Z 200 /\ is_running s = true.
Proof. vm_compute. split; reflexivity. Qed.

(** C2 (amended).  In the scenario, starting from lens position -200, 400
    steps bring the lens to exactly +200 with the engine still running; the
    401st step moves it to 201, past [simWidth/2], and stops the engine with
    401 samples recorded; further steps do nothing. *)
Theorem scenario_run_ends_after_401_steps (np_cos np_sin : f64 -> f64) :
  let s0 := press_start initial_state in
  let s400 := N.iter 400 (step np_cos np_sin scenario) s0 in
  let s401 := step np_cos np_sin scenario s400 in
  int_value (lens_pos_x s0) = Some (-200) /\
  (int_value (lens_pos_x s400) = Some 200 /\ is_running s400 = true /\
   time_step s400 = 400) /\
  (int_value (lens_pos_x s401) = Some 201 /\ is_running s401 = false /\
   time_step s401 = 401 /\ length (light_curve_data s401) = 401%nat) /\
  step np_cos np_sin scenario s401 = s401.
Proof. vm_compute. repeat split; reflexivity. Qed.

(** In the scenario every recorded magnification is finite and at least 1. *)
Lemma scenario_light_curve_finite_ge_1 :
  forallb (fun row => is_finite (snd row) && (of_Z 1 <=? snd row)%f64)
    (light_curve_data
       (N.iter 401 (step no_trig no_trig scenario) (press_start initial_state)))
  = true.
Proof. vm_compute. reflexivity. Qed.

(* ================================================================== *)
(** * Order and sign of integer floats *)

Lemma pshl_compare (a b : positive) (k : Z) :
  0 <= k -> (pshl a k ?= pshl b k)%positive = (a ?= b)%positive.
Proof.
  intros Hk.
  rewrite !Pos2Z.inj_compare, !pshl_value by assumption.
  assert (Hp : 0 < 2 ^ k) by (apply Z.pow_pos_nonneg; lia).
  remember (2 ^ k) as q.
  destruct (Z.compare_spec (Z.pos a * q) (Z.pos b * q));
    destruct (Z.compare_spec (Z.pos a) (Z.pos b)); try reflexivity; nia.
Qed.

Lemma digits2_lt_compare (a b : positive) :
  Z.pos (digits2_pos a) < Z.pos (digits2_pos b) -> (a ?= b)%positive = Lt.
Proof.
  intros H. destruct (digits2_bounds a) as [_ Ha].
  destruct (digits2_bounds b) as [Hb _].
  assert (2 ^ Z.pos (digits2_pos a) <= 2 ^ (Z.pos (digits2_pos b) - 1))
    by (apply Z.pow_le_mono_r; lia).
  apply Pos.compare_lt_iff. lia.
Qed.

Lemma compare_int_float_pos (a b : positive) :
  Z.pos a < 2 ^ 53 -> Z.pos b < 2 ^ 53 ->
  SFcompare (int_float false a) (int_float false b) = Some (a ?= b)%positive.
Proof.
  intros Ha Hb. unfold int_float. cbn [SFcompare].
  pose proof (digits2_le_53 a Ha) as Hda.
  pose proof (digits2_le_53 b Hb) as Hdb.
  set (da := Z.pos (digits2_pos a)) in *.
  set (db := Z.pos (digits2_pos b)) in *.
  destruct (Z.compare_spec (da - 53) (db - 53)) as [E|L|G].
  - assert (Ed : da = db) by lia. rewrite Ed.
    change (Pos.compare_cont Eq ?x ?y) with (Pos.compare x y).
    rewrite pshl_compare by lia. reflexivity.
  - rewrite (digits2_lt_compare a b) by (fold da db; lia). reflexivity.
  - rewrite (Pos.compare_antisym b a).
    rewrite (digits2_lt_compare b a) by (fold da db; lia). reflexivity.
Qed.

Lemma compare_int_float_neg (a b : positive) :
  Z.pos a < 2 ^ 53 -> Z.pos b < 2 ^ 53 ->
  SFcompare (int_float true a) (int_float true b)
  = Some (CompOpp (a ?= b)%positive).
Proof.
  intros Ha Hb.
  pose proof (compare_int_float_pos a b Ha Hb) as H.
  unfold int_float in *. cbn [SFcompare] in *.
  injection H as H. rewrite <- H.
  destruct (_ ?= _); reflexivity.
Qed.

(** Below [2^53] the conversion from integers preserves the order. *)
Lemma compare_of_Z (a b : Z) :
  Z.abs a < 2 ^ 53 -> Z.abs b < 2 ^ 53 ->
  SFcompare (of_Z a) (of_Z b) = Some (a ?= b).
Proof.
  intros Ha Hb.
  destruct (of_Z_cases a Ha) as [[-> Ea]|(sa & wa & Ea & Hwa & Fa)];
    destruct (of_Z_cases b Hb) as [[-> Eb]|(sb & wb & Eb & Hwb & Fb)].
  - reflexivity.
  - rewrite Ea, Fb, Eb. destruct sb; reflexivity.
  - rewrite Eb, Fa, Ea. destruct sa; reflexivity.
  - rewrite Fa, Fb, Ea, Eb. destruct sa, sb.
    + rewrite compare_int_float_neg by assumption. cbn [cond_Zopp].
      rewrite Pos2Z.inj_compare.
      change (- Z.pos wa ?= - Z.pos wb) with (CompOpp (Z.pos wa ?= Z.pos wb)).
      reflexivity.
    + reflexivity.
    + reflexivity.
    + rewrite compare_int_float_pos by assumption. reflexivity.
Qed.

Lemma ltb_of_Z (a b : Z) :
  Z.abs a < 2 ^ 53 -> Z.abs b < 2 ^ 53 ->
  (of_Z a <? of_Z b)%f64 = (a <? b).
Proof.
  intros Ha Hb. unfold ltb, SFltb. rewrite compare_of_Z by assumption.
  unfold Z.ltb. destruct (a ?= b); reflexivity.
Qed.

Lemma binary_round_aux_opp (s : bool) (m e : Z) (l : location) :
  SFopp (binary_round_aux prec emax s m e l)
  = binary_round_aux prec emax (negb s) m e l.
Proof.
  unfold binary_round_aux.
  destruct (shr_fexp prec emax m e l) as [mrs' e'].
  destruct (shr_fexp prec emax _ e' loc_Exact) as [mrs'' e''].
  destruct (shr_m mrs'') as [|p|p]; try reflexivity.
  destruct (e'' <=? emax - prec); reflexivity.
Qed.

Lemma of_Z_opp (z : Z) : z <> 0 -> of_Z (- z) = SFopp (of_Z z).
Proof.
  intros Hz. destruct z as [|p|p]; [congruence| |];
    unfold of_Z; cbn [Z.opp binary_normalize]; unfold binary_round;
    destruct (shl_align _ _ _) as [mz ez];
    rewrite binary_round_aux_opp; reflexivity.
Qed.

(* ================================================================== *)
(** * The loop as a whole *)

Lemma half_width : int_truediv SIM_WIDTH 2 = of_Z 200.
Proof. reflexivity. Qed.

(** Whether an integer position up to [2^53] is past the right edge. *)
Lemma past_edge_of_Z (z : Z) :
  -200 <= z <= 9007199254740992 ->
  (int_truediv SIM_WIDTH 2 <? of_Z z)%f64 = (200 <? z).
Proof.
  intros Hz. rewrite half_width.
  destruct (Z.eq_dec z 9007199254740992) as [->|NE]; [reflexivity|].
  apply ltb_of_Z; change (2 ^ 53) with 9007199254740992; lia.
Qed.

Section WholeLoop.

Variables np_cos np_sin : f64 -> f64.
Variable c : sidebar.

Local Abbreviation body := (loop_body np_cos np_sin c).
Local Abbreviation loop := (while_running np_cos np_sin c).

Lemma while_running_idle (fuel : nat) (s : session_state) :
  is_running s = false -> loop fuel s = Some s.
Proof. intros H. destruct fuel; cbn; rewrite H; reflexivity. Qed.

Lemma while_running_step (fuel : nat) (s : session_state) :
  is_running s = true -> loop (S fuel) s = loop fuel (body s).
Proof. intros H. cbn. rewrite H. reflexivity. Qed.

Lemma is_running_loop_body (s : session_state) (z : Z) :
  lens_pos_x s = of_Z z -> -200 <= z < 9007199254740992 ->
  is_running (body s) = if 200 <=? z then false else is_running s.
Proof.
  intros Hx Hz. cbn [loop_body is_running].
  rewrite lens_increment, Hx, add_one_exact, past_edge_of_Z by lia.
  destruct (Z.ltb_spec 200 (z + 1)), (Z.leb_spec 200 z); try lia; reflexivity.
Qed.

Lemma lens_pos_x_loop_body (s : session_state) (z : Z) :
  lens_pos_x s = of_Z z -> -200 <= z < 9007199254740992 ->
  lens_pos_x (body s) = of_Z (z + 1).
Proof.
  intros Hx Hz. cbn [loop_body lens_pos_x].
  rewrite lens_increment, Hx. apply add_one_exact. lia.
Qed.

Lemma times_loop_body (s : session_state) :
  map fst (light_curve_data (body s))
  = map fst (light_curve_data s) ++ [time_step s].
Proof. cbn [loop_body light_curve_data]. rewrite map_app. reflexivity. Qed.

(** A running loop at an integer position [z < 200] makes [201 - z]
    iterations and stops with the lens at 201. *)
Lemma while_running_completes (n : nat) :
  forall (s : session_state) (z : Z) (fuel : nat),
  is_running s = true ->
  lens_pos_x s = of_Z z ->
  -200 <= z -> z + Z.of_nat n = 200 ->
  (S n <= fuel)%nat ->
  exists s',
    loop fuel s = Some s' /\
    is_running s' = false /\
    lens_pos_x s' = of_Z 201 /\
    time_step s' = time_step s + Z.of_nat (S n) /\
    map fst (light_curve_data s')
    = map fst (light_curve_data s)
      ++ map (fun i => time_step s + Z.of_nat i) (seq 0 (S n)).
Proof.
  induction n as [|n IH]; intros s z fuel Hr Hx Hlo Hz Hf.
  - destruct fuel as [|fuel]; [lia|].
    exists (body s).
    rewrite while_running_step by assumption.
    assert (Hi : is_running (body s) = false).
    { rewrite (is_running_loop_body s z) by (assumption || lia).
      destruct (Z.leb_spec 200 z); [reflexivity | lia]. }
    rewrite while_running_idle by assumption.
    split; [reflexivity|]. split; [assumption|].
    split; [rewrite (lens_pos_x_loop_body s z) by (assumption || lia);
            f_equal; lia|].
    split; [cbn [loop_body time_step]; lia|].
    rewrite times_loop_body. cbn [seq map]. do 2 f_equal. lia.
  - destruct fuel as [|fuel]; [lia|].
    rewrite while_running_step by assumption.
    assert (Hi : is_running (body s) = true).
    { rewrite (is_running_loop_body s z) by (assumption || lia).
      destruct (Z.leb_spec 200 z); [lia | assumption]. }
    destruct (IH (body s) (z + 1) fuel Hi
                (lens_pos_x_loop_body s z Hx ltac:(lia))
                ltac:(lia) ltac:(lia) ltac:(lia))
      as (s' & Hl & Hr' & Hx' & Ht' & Hm').
    exists s'. split; [assumption|]. split; [assumption|].
    split; [assumption|].
    split; [rewrite Ht'; cbn [loop_body time_step]; lia|].
    rewrite Hm', times_loop_body, <- app_assoc. f_equal.
    change (seq 0 (S (S n))) with (0%nat :: seq 1 (S n)).
    rewrite <- seq_shift. cbn [map app]. rewrite map_map.
    f_equal; [lia|]. apply map_ext. intros i.
    cbn [loop_body time_step]. lia.
Qed.

End WholeLoop.

Lemma map_of_nat_seq_offset (m n st : nat) :
  map (fun i => Z.of_nat n + Z.of_nat i) (seq st m)
  = map Z.of_nat (seq (n + st) m).
Proof.
  revert st. induction m as [|m IH]; intros st; [reflexivity|].
  cbn [seq map]. rewrite IH, Nat.add_succ_r. f_equal. lia.
Qed.

Section Sessions.

Variables np_cos np_sin : f64 -> f64.
Variable c : sidebar.

Local Abbreviation body := (loop_body np_cos np_sin c).
Local Abbreviation counting := (run_counting np_cos np_sin c).

(** X3.  Once the lens has reached the right edge (400 iterations or more
    since the last reset) nothing keeps Start from running the loop again:
    each press executes exactly one more iteration, which appends one more
    sample, and the loop stops again. *)
Theorem start_after_the_end_runs_one_iteration
  (tr : list event) (fuel : nat) :
  let r := run_counting np_cos np_sin c initial_state tr in
  (400 <= snd r)%nat -> (N.of_nat (snd r) <= exact_steps)%N ->
  (1 <= fuel)%nat ->
  let s' := body (press_start (fst r)) in
  script_run np_cos np_sin c fuel (Some StartButton) (fst r) = Some s' /\
  is_running s' = false /\
  time_step s' = Z.of_nat (snd r) + 1 /\
  length (light_curve_data s') = S (snd r).
Proof.
  cbn zeta. unfold run_counting.
  pose proof (lens_position_along_trace np_cos np_sin c tr initial_state O
                eq_refl (fun _ => eq_refl)) as [Ht Hx].
  pose proof (fold_count_event_length np_cos np_sin c tr initial_state O
                eq_refl) as Hlen.
  cbn zeta in Ht, Hx, Hlen.
  destruct (fold_left _ tr (initial_state, O)) as [s n].
  cbn [fst snd] in *. intros Hn Hb Hf.
  specialize (Hx Hb). unfold exact_steps in Hb.
  assert (Hi : is_running (body (press_start s)) = false).
  { cbn [loop_body is_running press_start lens_pos_x].
    rewrite lens_increment, Hx.
    destruct (Z.eq_dec (Z.of_nat n - 200) 9007199254740992) as [E|NE].
    - rewrite E, add_one_stalls. reflexivity.
    - rewrite add_one_exact, past_edge_of_Z by lia.
      destruct (Z.ltb_spec 200 (Z.of_nat n - 200 + 1)); [reflexivity | lia]. }
  destruct fuel as [|fuel]; [lia|].
  unfold script_run, press.
  rewrite while_running_step by reflexivity.
  rewrite while_running_idle by exact Hi.
  split; [reflexivity|]. split; [exact Hi|].
  split; [cbn [loop_body time_step press_start]; lia|].
  cbn [loop_body light_curve_data press_start].
  rewrite length_app, Hlen. cbn. lia.
Qed.

(** X4.  Start, Pause and loop iterations never alter or remove a recorded
    sample: without a reset, the light curve a trace starts from is a prefix
    of the one it ends with. *)
Theorem samples_are_kept_without_reset
  (s : session_state) (tr : list event) :
  ~ In Reset tr ->
  exists added,
    light_curve_data (run np_cos np_sin c s tr)
    = light_curve_data s ++ added.
Proof.
  revert s. induction tr as [|e tr IH]; intros s Hno.
  - exists []. cbn. rewrite app_nil_r. reflexivity.
  - assert (Hno' : ~ In Reset tr) by (intros H; apply Hno; right; exact H).
    cbn [run fold_left].
    destruct (IH (apply_event np_cos np_sin c s e) Hno') as [added Ha].
    unfold run in Ha. rewrite Ha.
    destruct e; cbn [apply_event].
    + exists added. reflexivity.
    + exists added. unfold press_pause. destruct (is_running s); reflexivity.
    + exfalso. apply Hno. left. reflexivity.
    + unfold step. destruct (is_running s).
      * eexists. cbn [loop_body light_curve_data].
        rewrite <- app_assoc. reflexivity.
      * exists added. reflexivity.
Qed.

End Sessions.

(* ================================================================== *)
(** * Degenerate masses, symmetry, brightness *)

Lemma zero_mass_einstein_radius :
  einstein_radius (S754_zero false) = S754_zero false.
Proof. reflexivity. Qed.

Lemma impact_over_zero (x : f64) :
  (impact_parameter x / S754_zero false)%f64 = S754_nan \/
  (impact_parameter x / S754_zero false)%f64 = S754_infinity false.
Proof.
  destruct x as [[|]|[|]| |s m e]; cbn; auto.
Qed.

Lemma magnification_of_nan (r e : f64) :
  calculate_magnification S754_nan r e = S754_nan.
Proof. reflexivity. Qed.

Lemma magnification_of_infinity (r e : f64) :
  calculate_magnification (S754_infinity false) r e = S754_nan.
Proof.
  unfold calculate_magnification.
  destruct (rho_of r e) as [s|[|]| |s m ex]; reflexivity.
Qed.

Lemma add_nan_r (x : f64) : (x + S754_nan)%f64 = S754_nan.
Proof. destruct x; reflexivity. Qed.

Lemma zero_mass_magnification (c : sidebar) (x : f64) :
  body_magnification c x (S754_zero false) = S754_nan.
Proof.
  unfold body_magnification. rewrite zero_mass_einstein_radius.
  destruct (impact_over_zero x) as [-> | ->].
  - apply magnification_of_nan.
  - apply magnification_of_infinity.
Qed.

(** X6.  A body of mass exactly 0.0 has Einstein radius 0, the division of
    the impact parameter by it is not guarded, and the magnification comes
    out as NaN: with a lens of mass 0.0, or with a planet of mass 0.0, every
    iteration records NaN as the total magnification (and goes on). *)
Theorem zero_mass_records_nan
  (np_cos np_sin : f64 -> f64) (c : sidebar) (s : session_state) :
  lens_mass c = S754_zero false \/
  (has_planet c = true /\ planet_mass_slider c = S754_zero false) ->
  light_curve_data (loop_body np_cos np_sin c s)
  = light_curve_data s ++ [(time_step s, S754_nan)].
Proof.
  intros H. cbn [loop_body light_curve_data]. do 3 f_equal.
  unfold compute_frame. cbn [total_magnification].
  destruct H as [Hl | [Hp Hm]].
  - rewrite Hl, zero_mass_magnification. reflexivity.
  - unfold planet_mass. rewrite Hp, Hm, zero_mass_magnification.
    apply add_nan_r.
Qed.

Lemma impact_parameter_opp (x : f64) :
  impact_parameter (SFopp x) = impact_parameter x.
Proof. destruct x as [[|]|[|]| |s m e]; reflexivity. Qed.

Lemma body_magnification_opp (c : sidebar) (x mass : f64) :
  body_magnification c (SFopp x) mass = body_magnification c x mass.
Proof. unfold body_magnification. rewrite impact_parameter_opp. reflexivity. Qed.

Lemma body_magnification_of_Z_opp (c : sidebar) (z : Z) (mass : f64) :
  body_magnification c (of_Z (- z)) mass = body_magnification c (of_Z z) mass.
Proof.
  destruct (Z.eq_dec z 0) as [->|Hz]; [reflexivity|].
  rewrite of_Z_opp by assumption. apply body_magnification_opp.
Qed.

Section Symmetry.

Variables np_cos np_sin : f64 -> f64.
Variable c : sidebar.

Local Abbreviation after := (after_steps np_cos np_sin c).

Lemma total_without_planet (x : f64) (t : Z) :
  has_planet c = false ->
  total_magnification (compute_frame np_cos np_sin c x t)
  = (body_magnification c x (lens_mass c) + of_Z 0)%f64.
Proof.
  intros H. unfold compute_frame. cbn [total_magnification]. rewrite H.
  reflexivity.
Qed.

Lemma nth_light_curve_after_steps (n i : nat) :
  (i < n)%nat ->
  nth_error (light_curve_data (after (N.of_nat n))) i
  = Some (Z.of_nat i,
          total_magnification
            (compute_frame np_cos np_sin c
               (lens_pos_x (after (N.of_nat (S i)))) (Z.of_nat i))).
Proof.
  intros Hi. induction n as [|n IH]; [lia|].
  rewrite after_steps_S, light_curve_resume_step.
  destruct (Nat.eq_dec i n) as [->|Hne].
  - rewrite nth_error_app2
      by (rewrite length_light_curve_after_steps; lia).
    rewrite length_light_curve_after_steps, Nat.sub_diag.
    rewrite <- after_steps_S, time_step_after_steps_nat. reflexivity.
  - rewrite nth_error_app1
      by (rewrite length_light_curve_after_steps; lia).
    apply IH. lia.
Qed.

(** X7.  The magnification of a body depends on its position only through
    the distance to the source, so without a planet the light curve is
    symmetric about the passage of the lens in front of the source: the
    samples recorded at lens positions [-d] and [+d] (rows 199 - d and
    199 + d) carry the same magnification. *)
Theorem light_curve_symmetric_without_planet (n d : nat) :
  has_planet c = false -> (d <= 199)%nat -> (399 <= n)%nat ->
  exists m,
    nth_error (light_curve_data (after_steps np_cos np_sin c (N.of_nat n)))
              (199 - d)
    = Some (Z.of_nat (199 - d), m) /\
    nth_error (light_curve_data (after_steps np_cos np_sin c (N.of_nat n)))
              (199 + d)
    = Some (Z.of_nat (199 + d), m) /\
    m = (body_magnification c (of_Z (Z.of_nat d)) (lens_mass c)
         + of_Z 0)%f64.
Proof.
  intros Hp Hd Hn. eexists. split; [|split].
  - rewrite nth_light_curve_after_steps by lia.
    rewrite total_without_planet by assumption.
    rewrite lens_pos_x_after_steps by (unfold exact_steps; lia).
    replace (Z.of_N (N.of_nat (S (199 - d))) - 200) with (- Z.of_nat d)
      by lia.
    rewrite body_magnification_of_Z_opp. reflexivity.
  - rewrite nth_light_curve_after_steps by lia.
    rewrite total_without_planet by assumption.
    rewrite lens_pos_x_after_steps by (unfold exact_steps; lia).
    replace (Z.of_N (N.of_nat (S (199 + d))) - 200) with (Z.of_nat d) by lia.
    reflexivity.
  - reflexivity.
Qed.

End Symmetry.

Lemma ltb_leb (x y : f64) : (x <? y)%f64 = true -> (x <=? y)%f64 = true.
Proof.
  unfold ltb, leb, SFltb, SFleb.
  destruct (SFcompare x y) as [[| |]|]; intros H; congruence.
Qed.

(** X8.  The brightness index of the source star is always a number and
    never exceeds 1.0; a magnification that is NaN or infinite is drawn at
    the cap 1.0. *)
Theorem norm_mag_is_capped (total : f64) :
  is_nan (norm_mag total) = false /\
  (norm_mag total <=? lit_1_0)%f64 = true /\
  (is_nan total = true \/ total = S754_infinity false ->
   norm_mag total = lit_1_0).
Proof.
  unfold norm_mag, py_min.
  destruct ((total - of_Z 1) / of_Z 14 <? lit_1_0)%f64 eqn:E.
  - split; [apply (ltb_not_nan _ _ E)|]. split; [apply ltb_leb; exact E|].
    intros [H | ->]; [|discriminate E].
    destruct total; discriminate H || discriminate E.
  - repeat split; reflexivity.
Qed.

(* ================================================================== *)
(** * The orbital angle *)

Lemma two_pi_value :
  (of_Z 2 * np_pi)%f64 = S754_finite false 7074237752028440 (-50).
Proof. reflexivity. Qed.

(** A float in canonical form is its own rounding. *)
Lemma binary_round_canonical (s : bool) (m : positive) (e : Z) :
  canonical_mantissa prec emax m e = true -> e <= 971 ->
  binary_round prec emax s m e = S754_finite s m e.
Proof.
  unfold canonical_mantissa. intros Hc He. apply Z.eqb_eq in Hc.
  unfold binary_round. rewrite Hc, shl_align_pshl, Z.ltb_irrefl.
  unfold binary_round_aux, shr_fexp. cbn [Zdigits2 shr_record_of_loc].
  rewrite Hc, Z.sub_diag.
  cbn [shr shr_m loc_of_shr_record round_nearest_even Zdigits2
       shr_record_of_loc].
  rewrite Hc, Z.sub_diag. cbn [shr shr_m].
  replace (e <=? emax - prec) with true
    by (symmetry; apply Z.leb_le; unfold emax, prec; lia).
  reflexivity.
Qed.

Lemma canonical_below_2_53 (m : positive) (e : Z) :
  canonical_mantissa prec emax m e = true -> Z.pos m < 2 ^ 53.
Proof.
  unfold canonical_mantissa, fexp, SpecFloat.emin, prec, emax.
  intros Hc. apply Z.eqb_eq in Hc.
  destruct (digits2_bounds m) as [_ Hhi].
  assert (Hd : Z.pos (digits2_pos m) <= 53) by lia.
  assert (2 ^ Z.pos (digits2_pos m) <= 2 ^ 53)
    by (apply Z.pow_le_mono_r; lia).
  lia.
Qed.

Lemma compare_finite_exponent_lt (m1 m2 : positive) (e1 e2 : Z) :
  e1 < e2 ->
  SFcompare (S754_finite false m1 e1) (S754_finite false m2 e2) = Some Lt.
Proof.
  intros H. cbn [SFcompare].
  rewrite (proj2 (Z.compare_lt_iff e1 e2) H). reflexivity.
Qed.

Lemma compare_finite_mantissa_lt (m1 m2 : positive) (e : Z) :
  Z.pos m1 < Z.pos m2 ->
  SFcompare (S754_finite false m1 e) (S754_finite false m2 e) = Some Lt.
Proof.
  intros H. cbn [SFcompare]. rewrite Z.compare_refl.
  change (Pos.compare_cont Eq m1 m2) with (Z.pos m1 ?= Z.pos m2).
  unfold Z.lt in H. rewrite H. reflexivity.
Qed.

(** The remainder of a non-negative float by [2 * np.pi]: zero, or a
    positive float below [2 * np.pi]. *)
Lemma fmod_two_pi (m : positive) (e : Z) :
  canonical_mantissa prec emax m e = true -> e <= 971 ->
  let y := S754_finite false 7074237752028440 (-50) in
  fmod (S754_finite false m e) y = S754_zero false \/
  exists m' e',
    fmod (S754_finite false m e) y = S754_finite false m' e' /\
    SFcompare (S754_finite false m' e') y = Some Lt.
Proof.
  intros Hc He y. subst y.
  pose proof (canonical_below_2_53 m e Hc) as Hm.
  change (2 ^ 53) with 9007199254740992 in Hm.
  unfold fmod.
  rewrite !shl_align_fst_value by lia.
  destruct (Z.lt_ge_cases e (-50)) as [Hlt|Hge].
  - right. exists m, e.
    rewrite Z.min_l by lia.
    rewrite Z.sub_diag, Z.pow_0_r, Z.mul_1_r.
    assert (Hpow : 2 <= 2 ^ (-50 - e)).
    { change 2 with (2 ^ 1) at 1. apply Z.pow_le_mono_r; lia. }
    remember (2 ^ (-50 - e)) as q.
    rewrite Z.mod_small by nia.
    cbn [cond_Zopp binary_normalize].
    rewrite binary_round_canonical by (assumption || lia).
    split; [reflexivity|].
    apply compare_finite_exponent_lt. exact Hlt.
  - rewrite Z.min_r by lia.
    rewrite Z.sub_diag, Z.pow_0_r, Z.mul_1_r.
    remember (Z.pos m * 2 ^ (e - -50)) as X.
    pose proof (Z.mod_pos_bound X 7074237752028440 ltac:(lia)) as Hr.
    destruct (X mod 7074237752028440) as [|w|w]; try lia.
    + left. reflexivity.
    + right. cbn [cond_Zopp binary_normalize].
      pose proof (digits2_le_53 w ltac:(change (2 ^ 53)
                    with 9007199254740992; lia)) as Hd.
      pose proof (binary_round_exact false w 0 (-50)) as Hex.
      cbn zeta in Hex. cbn [pshl] in Hex.
      rewrite Hex by lia. clear Hex.
      eexists _, _. split; [reflexivity|].
      destruct (Z.eq_dec (Z.pos (digits2_pos w)) 53) as [E|NE].
      * rewrite E.
        replace (-50 + 0 + 53 - 53) with (-50) by reflexivity.
        replace (53 - 53) with 0 by reflexivity. cbn [pshl].
        apply compare_finite_mantissa_lt. exact (proj2 Hr).
      * apply compare_finite_exponent_lt. lia.
Qed.

(** X11.  Python's [%] by [2 * np.pi] brings every finite non-negative
    float into the half-open interval from 0 to [2 * np.pi]: the orbital
    angle handed to [np.cos] and [np.sin] is at least 0 and strictly below
    [2 * np.pi]. *)
Theorem orbital_angle_in_range (x : f64) :
  valid_binary prec emax x = true -> is_finite x = true ->
  sign_bit x = false ->
  (of_Z 0 <=? py_mod x (of_Z 2 * np_pi))%f64 = true /\
  (py_mod x (of_Z 2 * np_pi) <? of_Z 2 * np_pi)%f64 = true.
Proof.
  rewrite two_pi_value.
  destruct x as [s|s| |s m e]; cbn [is_finite sign_bit valid_binary];
    intros Hv Hf Hs; try discriminate; subst s.
  - split; reflexivity.
  - unfold bounded in Hv. apply andb_true_iff in Hv.
    destruct Hv as [Hc He]. apply Z.leb_le in He. unfold emax, prec in He.
    unfold py_mod.
    destruct (fmod_two_pi m e Hc ltac:(lia)) as [-> | (m' & e' & -> & Hlt)].
    + split; reflexivity.
    + cbn [is_nan is_zero].
      change (S754_finite false 7074237752028440 (-50) <? S754_zero false)%f64
        with false.
      change (S754_finite false m' e' <? S754_zero false)%f64 with false.
      cbn [eqb]. split; [reflexivity|].
      unfold ltb, SFltb. rewrite Hlt. reflexivity.
Qed.

(* ================================================================== *)
(** * What the session does not depend on, and what it does not do *)

Lemma loop_body_without_planet
  (np_cos np_sin np_cos' np_sin' : f64 -> f64) (c c' : sidebar)
  (s : session_state) :
  has_planet c = false -> has_planet c' = false ->
  lens_mass c = lens_mass c' -> source_radius c = source_radius c' ->
  loop_body np_cos np_sin c s = loop_body np_cos' np_sin' c' s.
Proof.
  intros H H' Hm Hr. unfold loop_body, compute_frame, body_magnification.
  cbn [total_magnification]. rewrite H, H', Hm, Hr. reflexivity.
Qed.

(** X10.  Without a planet the session does not depend on the planet
    sliders, on the distance factor of the lens, or on [np.cos] and
    [np.sin]: two runs of the same trace that agree on the lens mass and
    the source radius go through the same states. *)
Theorem run_without_planet_ignores_planet_controls
  (np_cos np_sin np_cos' np_sin' : f64 -> f64) (c c' : sidebar)
  (s : session_state) (tr : list event) :
  has_planet c = false -> has_planet c' = false ->
  lens_mass c = lens_mass c' -> source_radius c = source_radius c' ->
  run np_cos np_sin c s tr = run np_cos' np_sin' c' s tr.
Proof.
  intros H H' Hm Hr. revert s.
  induction tr as [|e tr IH]; intros s; [reflexivity|].
  cbn [run fold_left]. unfold run in IH.
  replace (apply_event np_cos np_sin c s e)
    with (apply_event np_cos' np_sin' c' s e); [apply IH|].
  destruct e; cbn [apply_event]; try reflexivity.
  unfold step. destruct (is_running s); [|reflexivity].
  symmetry. apply loop_body_without_planet; assumption.
Qed.

(** X12.  An idle session does not advance by itself: as long as Start is
    not pressed, it stays idle, and it is either exactly as it was or, after
    a reset, in the initial state. *)
Theorem idle_session_stays_put
  (np_cos np_sin : f64 -> f64) (c : sidebar)
  (s : session_state) (tr : list event) :
  is_running s = false -> ~ In Start tr ->
  is_running (run np_cos np_sin c s tr) = false /\
  (run np_cos np_sin c s tr = s \/
   run np_cos np_sin c s tr = initial_state).
Proof.
  revert s. induction tr as [|e tr IH]; intros s Hi Hno.
  - split; [exact Hi | left; reflexivity].
  - assert (Hno' : ~ In Start tr) by (intros H; apply Hno; right; exact H).
    cbn [run fold_left]. fold (run np_cos np_sin c).
    destruct e; cbn [apply_event].
    + exfalso. apply Hno. left. reflexivity.
    + unfold press_pause. rewrite Hi. apply IH; assumption.
    + destruct (IH initial_state eq_refl Hno') as [Hr [He|He]].
      * split; [exact Hr | right; exact He].
      * split; [exact Hr | right; exact He].
    + unfold step. rewrite Hi. apply IH; assumption.
Qed.

(* ================================================================== *)
(** * Instances *)

Lemma start_after_the_end_runs_one_iteration_witness :
  let tr := Start :: repeat Step 401 in
  let r := run_counting no_trig no_trig scenario initial_state tr in
  (400 <= snd r)%nat /\ (N.of_nat (snd r) <= exact_steps)%N /\
  (1 <= 1)%nat /\
  is_running (loop_body no_trig no_trig scenario (press_start (fst r)))
  = false.
Proof.
  cbn zeta.
  assert (H1 : (400 <= snd (run_counting no_trig no_trig scenario
                              initial_state (Start :: repeat Step 401)))%nat)
    by (vm_compute; lia).
  assert (H2 : (N.of_nat (snd (run_counting no_trig no_trig scenario
                                 initial_state (Start :: repeat Step 401)))
                <= exact_steps)%N)
    by (vm_compute; discriminate).
  assert (H3 : (1 <= 1)%nat) by lia.
  split; [exact H1|]. split; [exact H2|]. split; [exact H3|].
  exact (proj1 (proj2 (start_after_the_end_runs_one_iteration
                         no_trig no_trig scenario _ 1 H1 H2 H3))).
Defined.

Lemma samples_are_kept_without_reset_witness :
  ~ In Reset [Start; Step] /\
  exists added,
    light_curve_data (run no_trig no_trig scenario initial_state [Start; Step])
    = light_curve_data initial_state ++ added.
Proof.
  assert (H : ~ In Reset [Start; Step])
    by (intros [H|[H|[]]]; discriminate H).
  split; [exact H|].
  exact (samples_are_kept_without_reset no_trig no_trig scenario
           initial_state [Start; Step] H).
Defined.

Lemma zero_mass_records_nan_witness :
  let c := {| lens_mass := S754_zero false;
              lens_dist_factor := lens_dist_factor scenario;
              has_planet := false;
              planet_mass_slider := S754_zero false;
              planet_orbit_dist_slider := 0;
              planet_orbit_speed_slider := S754_zero false;
              source_radius := 8 |} in
  (lens_mass c = S754_zero false \/
   (has_planet c = true /\ planet_mass_slider c = S754_zero false)) /\
  light_curve_data (loop_body no_trig no_trig c (press_start initial_state))
  = [(0, S754_nan)].
Proof.
  intros c.
  assert (H : lens_mass c = S754_zero false \/
              (has_planet c = true /\ planet_mass_slider c = S754_zero false))
    by (left; reflexivity).
  split; [exact H|].
  exact (zero_mass_records_nan no_trig no_trig c (press_start initial_state)
           H).
Defined.

Lemma light_curve_symmetric_without_planet_witness :
  has_planet scenario = false /\ (1 <= 199)%nat /\ (399 <= 399)%nat /\
  exists m,
    nth_error (light_curve_data
                 (after_steps no_trig no_trig scenario (N.of_nat 399)))
              (199 - 1)
    = Some (Z.of_nat (199 - 1), m) /\
    nth_error (light_curve_data
                 (after_steps no_trig no_trig scenario (N.of_nat 399)))
              (199 + 1)
    = Some (Z.of_nat (199 + 1), m) /\
    m = (body_magnification scenario (of_Z (Z.of_nat 1)) (lens_mass scenario)
         + of_Z 0)%f64.
Proof.
  assert (H1 : has_planet scenario = false) by reflexivity.
  assert (H2 : (1 <= 199)%nat) by lia.
  assert (H3 : (399 <= 399)%nat) by lia.
  split; [exact H1|]. split; [exact H2|]. split; [exact H3|].
  exact (light_curve_symmetric_without_planet no_trig no_trig scenario
           399 1 H1 H2 H3).
Defined.

Lemma run_without_planet_ignores_planet_controls_witness :
  let c' := {| lens_mass := lens_mass scenario;
               lens_dist_factor := lit_0_1;
               has_planet := false;
               planet_mass_slider := lit_0_1;
               planet_orbit_dist_slider := 40;
               planet_orbit_speed_slider := of_Z 2;
               source_radius := 8 |} in
  has_planet scenario = false /\ has_planet c' = false /\
  lens_mass scenario = lens_mass c' /\
  source_radius scenario = source_radius c' /\
  run no_trig no_trig scenario initial_state [Start; Step]
  = run sqrt abs c' initial_state [Start; Step].
Proof.
  intros c'.
  assert (H1 : has_planet scenario = false) by reflexivity.
  assert (H2 : has_planet c' = false) by reflexivity.
  assert (H3 : lens_mass scenario = lens_mass c') by reflexivity.
  assert (H4 : source_radius scenario = source_radius c') by reflexivity.
  repeat (split; [assumption|]).
  exact (run_without_planet_ignores_planet_controls
           no_trig no_trig sqrt abs scenario c' initial_state [Start; Step]
           H1 H2 H3 H4).
Defined.

Lemma orbital_angle_in_range_witness :
  valid_binary prec emax (of_Z 7) = true /\ is_finite (of_Z 7) = true /\
  sign_bit (of_Z 7) = false /\
  (of_Z 0 <=? py_mod (of_Z 7) (of_Z 2 * np_pi))%f64 = true /\
  (py_mod (of_Z 7) (of_Z 2 * np_pi) <? of_Z 2 * np_pi)%f64 = true.
Proof.
  assert (H1 : valid_binary prec emax (of_Z 7) = true) by reflexivity.
  assert (H2 : is_finite (of_Z 7) = true) by reflexivity.
  assert (H3 : sign_bit (of_Z 7) = false) by reflexivity.
  split; [exact H1|]. split; [exact H2|]. split; [exact H3|].
  exact (orbital_angle_in_range (of_Z 7) H1 H2 H3).
Defined.

Lemma idle_session_stays_put_witness :
  is_running initial_state = false /\ ~ In Start [Pause; Step] /\
  is_running (run no_trig no_trig scenario initial_state [Pause; Step])
  = false.
Proof.
  assert (H : ~ In Start [Pause; Step])
    by (intros [H|[H|[]]]; discriminate H).
  split; [reflexivity|]. split; [exact H|].
  exact (proj1 (idle_session_stays_put no_trig no_trig scenario
                  initial_state [Pause; Step] eq_refl H)).
Defined.

(* ================================================================== *)
(** * Sessions with passes cut short *)

Lemma cuts_app (l : list pass) (p : pass) :
  cuts (l ++ [p]) = (cuts l + if cut_short p then 1 else 0)%nat.
Proof.
  unfold cuts. rewrite filter_app, length_app. cbn [filter].
  destruct (cut_short p); reflexivity.
Qed.

Lemma cuts_le_length (l : list pass) : (cuts l <= length l)%nat.
Proof.
  unfold cuts. induction l as [|p l IH]; [reflexivity|].
  cbn. destruct (cut_short p); cbn; lia.
Qed.

Lemma cuts_firstn_le (l : list pass) (n : nat) :
  (cuts (firstn n l) <= cuts l)%nat.
Proof.
  unfold cuts. revert n. induction l as [|p l IH]; intros n.
  - rewrite firstn_nil. reflexivity.
  - destruct n as [|n]; [cbn; lia|].
    cbn [firstn filter]. specialize (IH n).
    destruct (cut_short p); cbn; lia.
Qed.

Lemma firstn_app_short (l : list pass) (p : pass) (n : nat) :
  (n <= length l)%nat -> firstn n (l ++ [p]) = firstn n l.
Proof.
  intros H. rewrite firstn_app.
  replace (n - length l)%nat with O by lia.
  cbn. apply app_nil_r.
Qed.

Lemma firstn_succ_nth_error (l : list pass) (n : nat) (p : pass) :
  nth_error l n = Some p -> firstn (S n) l = firstn n l ++ [p].
Proof.
  revert n. induction l as [|q l IH]; intros n H; [destruct n; discriminate|].
  destruct n as [|n]; [cbn in H; injection H as ->; reflexivity|].
  cbn [firstn app]. f_equal. apply IH. exact H.
Qed.

Lemma sample_time_app (l : list pass) (p : pass) (k : nat) :
  (1 <= k <= length l)%nat -> sample_time (l ++ [p]) k = sample_time l k.
Proof.
  intros H. unfold sample_time. rewrite firstn_app_short by lia. reflexivity.
Qed.

Lemma sample_time_last (l : list pass) (p : pass) :
  sample_time (l ++ [p]) (S (length l))
  = Z.of_nat (length l) - Z.of_nat (cuts l).
Proof.
  unfold sample_time.
  replace (S (length l) - 1)%nat with (length l) by lia.
  rewrite firstn_app, firstn_all, Nat.sub_diag. cbn [firstn].
  rewrite app_nil_r. reflexivity.
Qed.

(** The time step found by the pass after the k-th: one more if the k-th
    ran to its end, the same if it was cut short. *)
Lemma sample_time_succ (l : list pass) (k : nat) (p : pass) :
  (1 <= k)%nat -> nth_error l (k - 1) = Some p ->
  sample_time l (S k)
  = sample_time l k + (if cut_short p then 0 else 1).
Proof.
  intros Hk Hp. unfold sample_time.
  replace (S k - 1)%nat with (S (k - 1)) by lia.
  rewrite (firstn_succ_nth_error l (k - 1) p Hp), cuts_app.
  destruct (cut_short p); lia.
Qed.

Lemma sample_time_bounds (l : list pass) (k : nat) :
  (1 <= k)%nat -> 0 <= sample_time l k <= Z.of_nat k - 1.
Proof.
  intros Hk. unfold sample_time.
  pose proof (cuts_le_length (firstn (k - 1) l)) as H.
  pose proof (firstn_le_length (k - 1) l) as H'. lia.
Qed.

Lemma sample_time_no_cut (l : list pass) (k : nat) :
  (1 <= k)%nat -> cuts l = O -> sample_time l k = Z.of_nat k - 1.
Proof.
  intros Hk H0. unfold sample_time.
  pose proof (cuts_firstn_le l (k - 1)) as H. lia.
Qed.

Section CutSessions.

Variables np_cos np_sin : f64 -> f64.

Local Abbreviation Inv := (session_invariant np_cos np_sin).
Local Abbreviation logging := (replay_logging np_cos np_sin).

Lemma invariant_initial : Inv initial_state [].
Proof.
  repeat split; try reflexivity.
  - intros k Hk; cbn in Hk; lia.
  - intros k p Hk Hp. destruct (k - 1)%nat; discriminate.
Qed.

(** A pass, cut or not, appends one sample, at the lens position it has
    advanced to, with the time step it found. *)
Lemma invariant_pass (s s' : session_state) (log : list pass) (p : pass) :
  Inv s log ->
  lens_pos_x s' = (lens_pos_x s + int_truediv SIM_WIDTH TIME_STEPS)%f64 ->
  light_curve_data s'
  = light_curve_data s
    ++ [(time_step s,
         total_magnification
           (compute_frame np_cos np_sin (controls p) (lens_pos_x s')
              (time_step s)))] ->
  time_step s' = time_step s + (if cut_short p then 0 else 1) ->
  Inv s' (log ++ [p]).
Proof.
  intros (Hlen & Ht & Hx & Hfst & Hsnd) Hx' Hd' Ht'.
  assert (Hx'' : (N.of_nat (S (length log)) <= exact_steps)%N ->
                 lens_pos_x s' = of_Z (Z.of_nat (S (length log)) - 200)).
  { intros Hb. unfold exact_steps in *.
    rewrite Hx', lens_increment, Hx by lia.
    rewrite add_one_exact by lia. f_equal. lia. }
  unfold session_invariant.
  rewrite Hd', !length_app, cuts_app. cbn [length].
  split; [lia|]. split; [rewrite Ht', Ht; destruct (cut_short p); lia|].
  split; [intros Hb; replace (length log + 1)%nat with (S (length log))
            in * by lia; auto|].
  split.
  - intros k Hk.
    destruct (Nat.eq_dec k (S (length log))) as [->|Hne].
    + rewrite nth_error_app2 by lia.
      replace (S (length log) - 1 - length (light_curve_data s))%nat
        with O by lia.
      cbn [nth_error option_map fst].
      rewrite sample_time_last, Ht. reflexivity.
    + rewrite nth_error_app1 by lia.
      rewrite sample_time_app by lia. apply Hfst. lia.
  - intros k q Hk Hq Hb.
    assert (Hk' : (k - 1 < length (log ++ [p]))%nat).
    { apply nth_error_Some. rewrite Hq. discriminate. }
    rewrite length_app in Hk'. cbn [length] in Hk'.
    destruct (Nat.eq_dec k (S (length log))) as [->|Hne].
    + rewrite nth_error_app2 in Hq by lia.
      replace (S (length log) - 1 - length log)%nat with O in Hq by lia.
      cbn in Hq. injection Hq as <-.
      rewrite nth_error_app2 by lia.
      replace (S (length log) - 1 - length (light_curve_data s))%nat
        with O by lia.
      cbn [nth_error option_map snd].
      rewrite sample_time_last, Ht, Hx'' by assumption. reflexivity.
    + rewrite nth_error_app1 in Hq by lia.
      rewrite nth_error_app1 by lia.
      rewrite sample_time_app by lia. apply Hsnd; assumption.
Qed.

Lemma invariant_log_event (s : session_state) (log : list pass)
  (ce : sidebar * script_event) :
  Inv s log ->
  Inv (fst (log_event np_cos np_sin (s, log) ce))
      (snd (log_event np_cos np_sin (s, log) ce)).
Proof.
  intros H. destruct ce as [c [[| | |]|]];
    cbn [log_event apply_event fst snd].
  - exact H.
  - unfold press_pause. destruct (is_running s); exact H.
  - apply invariant_initial.
  - unfold step. destruct (is_running s); [|exact H].
    apply (invariant_pass s _ log (mk_pass false c) H); reflexivity.
  - unfold cut_step. destruct (is_running s); [|exact H].
    apply (invariant_pass s _ log (mk_pass true c) H);
      [reflexivity | reflexivity | cbn; lia].
Qed.

Lemma invariant_fold (tr : list (sidebar * script_event)) :
  forall (s : session_state) (log : list pass),
  Inv s log ->
  Inv (fst (fold_left (log_event np_cos np_sin) tr (s, log)))
      (snd (fold_left (log_event np_cos np_sin) tr (s, log))).
Proof.
  induction tr as [|e tr IH]; intros s log H; [exact H|].
  cbn [fold_left].
  pose proof (invariant_log_event s log e H) as H'.
  destruct (log_event np_cos np_sin (s, log) e) as [s' log'].
  apply IH. exact H'.
Qed.

Lemma invariant_reachable (tr : list (sidebar * script_event)) :
  Inv (fst (logging initial_state tr)) (snd (logging initial_state tr)).
Proof. apply invariant_fold, invariant_initial. Qed.

Lemma fold_log_event_replay (tr : list (sidebar * script_event)) :
  forall (s : session_state) (log : list pass),
  fst (fold_left (log_event np_cos np_sin) tr (s, log))
  = replay np_cos np_sin s tr.
Proof.
  induction tr as [|e tr IH]; intros s log; [reflexivity|].
  cbn [fold_left replay]. unfold replay in IH.
  destruct e as [c [[| | |]|]]; cbn [log_event script_step apply_event fst snd];
    apply IH.
Qed.

Lemma replay_logging_replay (s : session_state)
  (tr : list (sidebar * script_event)) :
  fst (logging s tr) = replay np_cos np_sin s tr.
Proof. apply fold_log_event_replay. Qed.

Lemma replay_logging_snoc (s : session_state)
  (tr : list (sidebar * script_event)) (ce : sidebar * script_event) :
  logging s (tr ++ [ce]) = log_event np_cos np_sin (logging s tr) ce.
Proof. unfold replay_logging. rewrite fold_left_app. reflexivity. Qed.

End CutSessions.

Section CutClaims.

Variables np_cos np_sin : f64 -> f64.

(** C1.  In every state the script can reach, with [p] the number of loop
    passes begun since the most recent reset (each one advances the lens
    once, whether it runs to its end or is cut short by a press or a moved
    slider), [lens_pos_x] is exactly the closed form
    [-SIM_WIDTH/2 + p * SIM_WIDTH/TIME_STEPS]: the float of that integer,
    whose integer value is read back without error, although the position
    is advanced by repeated addition in place.  [time_step] is [p] less the
    passes cut short, so in a run left alone the closed form holds of
    [time_step] itself.  The bound on [p], 2^53 + 200, is far above what
    a session can execute. *)
Theorem lens_position_follows_closed_form
  (tr : list (sidebar * script_event)) :
  let r := replay_logging np_cos np_sin initial_state tr in
  let p := Z.of_nat (length (snd r)) in
  (N.of_nat (length (snd r)) <= exact_steps)%N ->
  fst r = replay np_cos np_sin initial_state tr /\
  lens_pos_x (fst r) = of_Z (closed_form p) /\
  int_value (lens_pos_x (fst r)) = Some (closed_form p) /\
  time_step (fst r) = p - Z.of_nat (cuts (snd r)) /\
  (cuts (snd r) = O ->
   lens_pos_x (fst r) = of_Z (closed_form (time_step (fst r)))).
Proof.
  cbn zeta. intros Hb.
  destruct (invariant_reachable np_cos np_sin tr)
    as (_ & Ht & Hx & _ & _).
  split; [apply replay_logging_replay|].
  rewrite closed_form_eq.
  split; [exact (Hx Hb)|].
  split.
  { rewrite (Hx Hb). unfold exact_steps in Hb.
    destruct (Z.eq_dec (Z.of_nat (length (snd (replay_logging np_cos np_sin
                                                 initial_state tr))) - 200)
                       9007199254740992) as [E|NE].
    - rewrite E. reflexivity.
    - apply of_Z_int_value. change (2 ^ 53) with 9007199254740992. lia. }
  split; [exact Ht|].
  intros H0. rewrite closed_form_eq, Ht, H0, Z.sub_0_r. exact (Hx Hb).
Qed.

(** C3 (amended).  The k-th sample recorded since the most recent reset
    carries the time step the k-th pass found, which is [k - 1] less the
    number of earlier passes cut short (so [k - 1] in a run left alone,
    and never [k]); its magnification is the total computed at the lens
    position after [k] advances, with that time step and the controls of
    that pass. *)
Theorem kth_sample_of_a_session
  (tr : list (sidebar * script_event)) (k : nat) (p : pass) :
  let r := replay_logging np_cos np_sin initial_state tr in
  let t := Z.of_nat k - 1 - Z.of_nat (cuts (firstn (k - 1) (snd r))) in
  (1 <= k)%nat -> nth_error (snd r) (k - 1) = Some p ->
  (N.of_nat k <= exact_steps)%N ->
  nth_error (light_curve_data (fst r)) (k - 1)
  = Some (t,
          total_magnification
            (compute_frame np_cos np_sin (controls p)
               (of_Z (closed_form (Z.of_nat k))) t)) /\
  0 <= t <= Z.of_nat k - 1 /\
  (cuts (snd r) = O -> t = Z.of_nat k - 1).
Proof.
  cbn zeta. intros Hk Hp Hb.
  destruct (invariant_reachable np_cos np_sin tr)
    as (Hlen & _ & _ & Hfst & Hsnd).
  assert (Hk' : (k - 1 < length (snd (replay_logging np_cos np_sin
                                         initial_state tr)))%nat).
  { apply nth_error_Some. rewrite Hp. discriminate. }
  specialize (Hfst k ltac:(lia)). specialize (Hsnd k p Hk Hp Hb).
  assert (E : sample_time (snd (replay_logging np_cos np_sin
                                  initial_state tr)) k
              = Z.of_nat k - 1
                - Z.of_nat (cuts (firstn (k - 1)
                     (snd (replay_logging np_cos np_sin initial_state tr))))).
  { unfold sample_time. lia. }
  rewrite <- E, closed_form_eq.
  split.
  - revert Hfst Hsnd.
    destruct (nth_error (light_curve_data _) (k - 1)) as [[t m]|];
      [|discriminate].
    cbn [option_map fst snd]. congruence.
  - split; [apply sample_time_bounds; exact Hk|].
    intros H0. apply sample_time_no_cut; assumption.
Qed.

(** C8.  In every state the script can reach, the light curve has one row
    per loop pass begun since the most recent reset, whether the pass ran
    to its end or was cut short after recording its sample; [time_step]
    counts the passes that ran to their end; a reset leaves the light
    curve empty and starts the count again. *)
Theorem light_curve_length_counts_passes
  (tr : list (sidebar * script_event)) (c : sidebar) :
  let r := replay_logging np_cos np_sin initial_state tr in
  fst r = replay np_cos np_sin initial_state tr /\
  length (light_curve_data (fst r)) = length (snd r) /\
  Z.of_nat (length (light_curve_data (fst r)))
  = time_step (fst r) + Z.of_nat (cuts (snd r)) /\
  light_curve_data (reset_simulation (fst r)) = [] /\
  replay_logging np_cos np_sin initial_state (tr ++ [(c, Atomic Reset)])
  = (initial_state, []).
Proof.
  cbn zeta.
  destruct (invariant_reachable np_cos np_sin tr) as (Hlen & Ht & _).
  split; [apply replay_logging_replay|].
  split; [exact Hlen|].
  split; [rewrite Hlen, Ht; lia|].
  split; [reflexivity|].
  rewrite replay_logging_snoc.
  destruct (replay_logging np_cos np_sin initial_state tr) as [s log].
  reflexivity.
Qed.

(** X1.  Between two resets the Time column starts at 0 and never
    decreases: the row after a pass that ran to its end carries that
    pass's time step plus one, the row after a pass cut short repeats its
    time step; [time_step] itself follows the last row in the same
    way. *)
Theorem time_column_follows_passes
  (tr : list (sidebar * script_event)) (i : nat) (p : pass) :
  let r := replay_logging np_cos np_sin initial_state tr in
  let times := map fst (light_curve_data (fst r)) in
  nth_error (snd r) i = Some p ->
  exists t,
    nth_error times i = Some t /\
    (i = O -> t = 0) /\
    ((S i < length (snd r))%nat ->
     nth_error times (S i) = Some (t + if cut_short p then 0 else 1)) /\
    (S i = length (snd r) ->
     time_step (fst r) = t + if cut_short p then 0 else 1).
Proof.
  cbn zeta. intros Hp.
  destruct (invariant_reachable np_cos np_sin tr)
    as (Hlen & Ht & _ & Hfst & _).
  remember (replay_logging np_cos np_sin initial_state tr) as r eqn:Er.
  assert (Hi : (i < length (snd r))%nat).
  { apply nth_error_Some. rewrite Hp. discriminate. }
  assert (Htimes : forall k, (1 <= k <= length (snd r))%nat ->
            nth_error (map fst (light_curve_data (fst r))) (k - 1)
            = Some (sample_time (snd r) k)).
  { intros k Hk. rewrite nth_error_map. apply Hfst. exact Hk. }
  assert (Hnext : sample_time (snd r) (S (S i))
                  = sample_time (snd r) (S i)
                    + (if cut_short p then 0 else 1)).
  { apply sample_time_succ; [lia|].
    replace (S i - 1)%nat with i by lia. exact Hp. }
  exists (sample_time (snd r) (S i)).
  split; [rewrite <- (Htimes (S i)) by lia; f_equal; lia|].
  split; [intros ->; reflexivity|].
  rewrite <- Hnext. split.
  - intros Hlt. rewrite <- (Htimes (S (S i))) by lia. f_equal.
  - intros E. rewrite Ht. unfold sample_time.
    replace (S (S i) - 1)%nat with (length (snd r)) by lia.
    rewrite firstn_all. lia.
Qed.

(** X5.  Once the loop is over, the closing message depends only on
    [time_step], which counts the passes that ran to their end: the
    invitation to adjust the parameters and press Start is shown exactly
    when the session is idle and no pass has run to its end since the
    most recent reset, even if samples were recorded by passes cut short;
    the 'paused or finished' message exactly when it is idle and some pass
    has run to its end. *)
Theorem final_info_counts_whole_passes
  (tr : list (sidebar * script_event)) :
  let r := replay_logging np_cos np_sin initial_state tr in
  (final_info (fst r) = Some AdjustAndStart <->
   is_running (fst r) = false /\ cuts (snd r) = length (snd r)) /\
  (final_info (fst r) = Some PausedOrFinished <->
   is_running (fst r) = false /\ (cuts (snd r) < length (snd r))%nat).
Proof.
  cbn zeta.
  destruct (invariant_reachable np_cos np_sin tr) as (_ & Ht & _).
  remember (replay_logging np_cos np_sin initial_state tr) as r eqn:Er.
  pose proof (cuts_le_length (snd r)) as Hle.
  unfold final_info.
  destruct (is_running (fst r)).
  - split; split; try discriminate; intros [H _]; discriminate H.
  - rewrite Ht.
    destruct (Z.ltb_spec 0 (Z.of_nat (length (snd r))
                            - Z.of_nat (cuts (snd r)))) as [H|H];
      split; split; intros H'; try discriminate H';
      try (split; [reflexivity | lia]); try reflexivity;
      destruct H'; lia.
Qed.

(** X2.  A session that has begun at most 400 passes since the most recent
    reset and is started or resumed, then left alone, stops by itself:
    the loop makes exactly the passes missing to 401 and ends idle with
    the lens at 201, one step past SIM_WIDTH/2, and 401 rows.  The time
    step it ends with is 401 less the passes that were cut short before:
    a pause that cut a pass leaves the counter behind for good. *)
Theorem resumed_run_completes
  (tr : list (sidebar * script_event)) (c : sidebar) (fuel : nat) :
  let r := replay_logging np_cos np_sin initial_state tr in
  (length (snd r) <= 400)%nat ->
  (401 - length (snd r) <= fuel)%nat ->
  exists s',
    script_run np_cos np_sin c fuel (Some StartButton) (fst r) = Some s' /\
    is_running s' = false /\
    lens_pos_x s' = of_Z 201 /\
    length (light_curve_data s') = 401%nat /\
    time_step s' = 401 - Z.of_nat (cuts (snd r)).
Proof.
  cbn zeta. intros Hp Hf.
  destruct (invariant_reachable np_cos np_sin tr)
    as (Hlen & Ht & Hx & _ & _).
  remember (replay_logging np_cos np_sin initial_state tr) as r eqn:Er.
  assert (Hb : (N.of_nat (length (snd r)) <= exact_steps)%N)
    by (unfold exact_steps; lia).
  destruct (while_running_completes np_cos np_sin c
              (400 - length (snd r)) (press_start (fst r))
              (Z.of_nat (length (snd r)) - 200) fuel
              eq_refl (Hx Hb) ltac:(lia) ltac:(lia) ltac:(lia))
    as (s' & Hl & Hr & Hx' & Ht' & Hm).
  exists s'. split; [exact Hl|]. split; [exact Hr|]. split; [exact Hx'|].
  split.
  - rewrite <- (length_map fst), Hm, length_app, !length_map, length_seq.
    cbn [press_start light_curve_data]. lia.
  - rewrite Ht'. cbn [press_start time_step]. lia.
Qed.

End CutClaims.

(** A Pause that cuts the first pass leaves one row and the invitation to
    press Start. *)
Lemma adjust_message_with_a_sample :
  let s := replay no_trig no_trig initial_state paused_in_first_pass in
  final_info s = Some AdjustAndStart /\ length (light_curve_data s) = 1%nat.
Proof. vm_compute. split; reflexivity. Qed.

(** The Time column of a session paused inside its third pass and
    resumed. *)
Lemma time_column_repeats_after_cut :
  map fst (light_curve_data
             (replay no_trig no_trig initial_state paused_and_resumed))
  = [0; 1; 2; 2; 3].
Proof. vm_compute. reflexivity. Qed.

Lemma lens_position_follows_closed_form_witness :
  let r := replay_logging no_trig no_trig initial_state
             paused_in_third_pass in
  (N.of_nat (length (snd r)) <= exact_steps)%N /\
  length (snd r) = 3%nat /\
  lens_pos_x (fst r) = of_Z (closed_form 3) /\
  time_step (fst r) = 2.
Proof.
  cbn zeta.
  assert (H : (N.of_nat (length (snd (replay_logging no_trig no_trig
                 initial_state paused_in_third_pass))) <= exact_steps)%N)
    by (vm_compute; discriminate).
  split; [exact H|]. split; [reflexivity|].
  split.
  - exact (proj1 (proj2 (lens_position_follows_closed_form
                           no_trig no_trig paused_in_third_pass H))).
  - vm_compute. reflexivity.
Defined.

Lemma kth_sample_of_a_session_witness :
  let r := replay_logging no_trig no_trig initial_state
             paused_and_resumed in
  (1 <= 4)%nat /\
  nth_error (snd r) (4 - 1) = Some (mk_pass false scenario) /\
  (N.of_nat 4 <= exact_steps)%N /\
  option_map fst (nth_error (light_curve_data (fst r)) (4 - 1)) = Some 2.
Proof.
  cbn zeta.
  assert (H1 : (1 <= 4)%nat) by lia.
  assert (H2 : nth_error (snd (replay_logging no_trig no_trig initial_state
                                 paused_and_resumed)) (4 - 1)
               = Some (mk_pass false scenario)) by (vm_compute; reflexivity).
  assert (H3 : (N.of_nat 4 <= exact_steps)%N) by (vm_compute; discriminate).
  split; [exact H1|]. split; [exact H2|]. split; [exact H3|].
  rewrite (proj1 (kth_sample_of_a_session no_trig no_trig
                    paused_and_resumed 4 (mk_pass false scenario)
                    H1 H2 H3)).
  vm_compute. reflexivity.
Defined.

Lemma time_column_follows_passes_witness :
  let r := replay_logging no_trig no_trig initial_state
             paused_and_resumed in
  nth_error (snd r) 2 = Some (mk_pass true scenario) /\
  exists t,
    nth_error (map fst (light_curve_data (fst r))) 2 = Some t /\
    nth_error (map fst (light_curve_data (fst r))) 3 = Some (t + 0).
Proof.
  cbn zeta.
  assert (H : nth_error (snd (replay_logging no_trig no_trig initial_state
                                paused_and_resumed)) 2
              = Some (mk_pass true scenario)) by (vm_compute; reflexivity).
  split; [exact H|].
  destruct (time_column_follows_passes no_trig no_trig paused_and_resumed
              2 (mk_pass true scenario) H) as (t & Ht & _ & Hn & _).
  exists t. split; [exact Ht|]. apply Hn. vm_compute. lia.
Defined.

Lemma resumed_run_completes_witness :
  let r := replay_logging no_trig no_trig initial_state
             paused_in_third_pass in
  (length (snd r) <= 400)%nat /\ (401 - length (snd r) <= 398)%nat /\
  exists s',
    script_run no_trig no_trig scenario 398 (Some StartButton) (fst r)
    = Some s' /\
    length (light_curve_data s') = 401%nat /\
    time_step s' = 401 - 1.
Proof.
  cbn zeta.
  assert (H1 : (length (snd (replay_logging no_trig no_trig initial_state
                               paused_in_third_pass)) <= 400)%nat)
    by (vm_compute; lia).
  assert (H2 : (401 - length (snd (replay_logging no_trig no_trig
                                     initial_state paused_in_third_pass))
                <= 398)%nat)
    by (vm_compute; lia).
  split; [exact H1|]. split; [exact H2|].
  destruct (resumed_run_completes no_trig no_trig paused_in_third_pass
              scenario 398 H1 H2) as (s' & Hl & _ & _ & Hn & Ht).
  exists s'. split; [exact Hl|]. split; [exact Hn|]. exact Ht.
Defined.

(* ================================================================== *)
(** * How small a rounded result can be *)

Lemma shr_1_div2 (r : shr_record) :
  0 <= shr_m r -> shr_m (shr_1 r) = shr_m r / 2.
Proof.
  destruct r as [m r s]. cbn [shr_m]. intros H.
  destruct m as [|[p|p|]|p]; cbn [shr_1 shr_m]; try lia.
  - reflexivity.
  - change (Z.pos p~1) with (2 * Z.pos p + 1).
    apply (Z.div_unique _ _ _ 1); lia.
  - change (Z.pos p~0) with (2 * Z.pos p).
    apply (Z.div_unique _ _ _ 0); lia.
  - reflexivity.
Qed.

Lemma iter_shr_1_div (p : positive) (r : shr_record) :
  0 <= shr_m r ->
  0 <= shr_m (Pos.iter shr_1 r p) /\
  shr_m (Pos.iter shr_1 r p) = shr_m r / 2 ^ Z.pos p.
Proof.
  intros H. induction p as [|p IH] using Pos.peano_ind.
  - cbn [Pos.iter]. split; [apply shr_1_nonneg, H|].
    rewrite shr_1_div2 by exact H. reflexivity.
  - destruct IH as [IH0 IH]. rewrite Pos.iter_succ.
    split; [apply shr_1_nonneg, IH0|].
    rewrite shr_1_div2 by exact IH0. rewrite IH.
    rewrite Pos2Z.inj_succ, Z.pow_succ_r by lia.
    rewrite Z.div_div by lia. f_equal. lia.
Qed.

Lemma digits2_lower (q : positive) (j : Z) :
  0 <= j -> 2 ^ j <= Z.pos q -> j + 1 <= Z.pos (digits2_pos q).
Proof.
  intros Hj H. destruct (digits2_bounds q) as [_ Hhi].
  assert (Hlt : 2 ^ j < 2 ^ Z.pos (digits2_pos q)) by lia.
  apply Z.pow_lt_mono_r_iff in Hlt; lia.
Qed.

Lemma digits2_mono (a b : positive) :
  Z.pos a <= Z.pos b -> Z.pos (digits2_pos a) <= Z.pos (digits2_pos b).
Proof.
  intros H. destruct (digits2_bounds a) as [Hlo _].
  pose proof (digits2_lower b (Z.pos (digits2_pos a) - 1) ltac:(lia)
                ltac:(lia)). lia.
Qed.

(** The first shift of the rounding keeps a number above the smallest
    subnormal positive, with its magnitude. *)
Lemma shr_fexp_lower (m : positive) (e : Z) (l : location) :
  -1074 < Z.pos (digits2_pos m) + e ->
  exists m1,
    shr_m (fst (shr_fexp prec emax (Z.pos m) e l)) = Z.pos m1 /\
    Z.pos (digits2_pos m) + e
    <= Z.pos (digits2_pos m1) + snd (shr_fexp prec emax (Z.pos m) e l).
Proof.
  intros HD. unfold shr_fexp. cbn [Zdigits2].
  set (d := Z.pos (digits2_pos m)) in *.
  assert (Hn : fexp prec emax (d + e) - e <= d - 1)
    by (unfold fexp, SpecFloat.emin, prec, emax; lia).
  assert (Hm : shr_m (shr_record_of_loc (Z.pos m) l) = Z.pos m)
    by (destruct l as [|[| |]]; reflexivity).
  destruct (fexp prec emax (d + e) - e) as [|n|n] eqn:En; cbn [shr fst snd].
  - exists m. split; [exact Hm | lia].
  - rewrite iter_pos_iter.
    destruct (iter_shr_1_div n (shr_record_of_loc (Z.pos m) l)
                ltac:(rewrite Hm; lia)) as [_ Hdiv].
    rewrite Hm in Hdiv.
    destruct (digits2_bounds m) as [Hlo _]. fold d in Hlo.
    assert (Hq : 2 ^ (d - 1 - Z.pos n) <= Z.pos m / 2 ^ Z.pos n).
    { apply Z.div_le_lower_bound; [apply Z.pow_pos_nonneg; lia|].
      rewrite <- Z.pow_add_r by lia.
      replace (Z.pos n + (d - 1 - Z.pos n)) with (d - 1) by lia.
      exact Hlo. }
    assert (Hpos : 0 < 2 ^ (d - 1 - Z.pos n))
      by (apply Z.pow_pos_nonneg; lia).
    destruct (Z.pos m / 2 ^ Z.pos n) as [|m1|m1] eqn:Eq; try lia.
    exists m1. split; [exact Hdiv|].
    pose proof (digits2_lower m1 (d - 1 - Z.pos n) ltac:(lia) Hq). lia.
  - exists m. split; [exact Hm | lia].
Qed.

Lemma round_nearest_even_lower (m : positive) (l : location) :
  exists m2, round_nearest_even (Z.pos m) l = Z.pos m2 /\
             Z.pos m <= Z.pos m2.
Proof.
  destruct l as [|[| |]]; cbn [round_nearest_even];
    try (exists m; split; [reflexivity | lia]).
  - destruct (Z.even (Z.pos m));
      [exists m | exists (m + 1)%positive]; split; reflexivity || lia.
  - exists (m + 1)%positive. split; reflexivity || lia.
Qed.

(** Rounding a positive number above the smallest subnormal gives a
    positive number of at least its magnitude, or [+infinity]. *)
Lemma binary_round_aux_magnitude (m : positive) (e : Z) (l : location) :
  -1074 < Z.pos (digits2_pos m) + e ->
  magnitude_ge (binary_round_aux prec emax false (Z.pos m) e l)
               (Z.pos (digits2_pos m) + e).
Proof.
  intros HD. unfold binary_round_aux.
  destruct (shr_fexp_lower m e l HD) as (m1 & H1 & D1).
  destruct (shr_fexp prec emax (Z.pos m) e l) as [mrs' e'].
  cbn [fst snd] in H1, D1. rewrite H1.
  destruct (round_nearest_even_lower m1 (loc_of_shr_record mrs'))
    as (m2 & H2 & L2).
  rewrite H2.
  pose proof (digits2_mono m1 m2 L2) as D2.
  destruct (shr_fexp_lower m2 e' loc_Exact ltac:(lia)) as (m3 & H3 & D3).
  destruct (shr_fexp prec emax (Z.pos m2) e' loc_Exact) as [mrs'' e''].
  cbn [fst snd] in H3, D3. rewrite H3.
  destruct (e'' <=? emax - prec); cbn [magnitude_ge]; [lia | exact I].
Qed.

Lemma magnitude_ge_weaken (x : f64) (M N : Z) :
  N <= M -> magnitude_ge x M -> magnitude_ge x N.
Proof.
  intros H. destruct x as [s|[|]| |[|] m e]; cbn [magnitude_ge]; try tauto.
  lia.
Qed.

Lemma magnitude_ge_nonneg (x : f64) (M : Z) : magnitude_ge x M -> nonneg x.
Proof.
  destruct x as [s|[|]| |[|] m e]; cbn [magnitude_ge nonneg]; tauto.
Qed.

Lemma magnitude_ge_positive (x : f64) (M : Z) :
  magnitude_ge x M -> (of_Z 0 <? x)%f64 = true.
Proof.
  destruct x as [s|[|]| |[|] m e]; cbn [magnitude_ge]; try tauto;
    reflexivity.
Qed.

Lemma binary_round_aux_nonneg (m e : Z) (l : location) :
  0 <= m -> nonneg (binary_round_aux prec emax false m e l).
Proof.
  intros H. unfold binary_round_aux.
  pose proof (shr_fexp_nonneg m e l H) as H1.
  destruct (shr_fexp prec emax m e l) as [mrs' e']. cbn [fst] in H1.
  pose proof (shr_fexp_nonneg _ e' loc_Exact
                (round_nearest_even_nonneg _ (loc_of_shr_record mrs') H1)) as H2.
  destruct (shr_fexp prec emax _ e' loc_Exact) as [mrs'' e'']. cbn [fst] in H2.
  destruct (shr_m mrs'') as [|p|p]; try lia; try exact I.
  destruct (e'' <=? emax - prec); exact I.
Qed.

(** Products. *)
Lemma mul_magnitude (a b : f64) (A B : Z) :
  magnitude_ge a A -> magnitude_ge b B -> -1074 < A + B - 1 ->
  magnitude_ge (a * b)%f64 (A + B - 1).
Proof.
  destruct a as [sa|[|]| |[|] ma ea]; cbn [magnitude_ge]; try tauto;
    destruct b as [sb|[|]| |[|] mb eb]; cbn [magnitude_ge]; try tauto;
    intros Ha Hb HAB; unfold mul; cbn [SFmul xorb magnitude_ge]; try exact I.
  destruct (digits2_bounds ma) as [La _].
  destruct (digits2_bounds mb) as [Lb _].
  set (da := Z.pos (digits2_pos ma)) in *.
  set (db := Z.pos (digits2_pos mb)) in *.
  assert (Hda : 0 < da) by (unfold da; lia).
  assert (Hdb : 0 < db) by (unfold db; lia).
  assert (Hp : 2 ^ (da + db - 2) <= Z.pos (ma * mb)).
  { replace (da + db - 2) with ((da - 1) + (db - 1)) by lia.
    rewrite Z.pow_add_r, Pos2Z.inj_mul by lia.
    apply Z.mul_le_mono_nonneg; try assumption;
      apply Z.pow_nonneg; lia. }
  pose proof (digits2_lower (ma * mb) (da + db - 2) ltac:(lia) Hp) as Hd.
  apply (magnitude_ge_weaken _ (Z.pos (digits2_pos (ma * mb)) + (ea + eb)));
    [lia|].
  apply binary_round_aux_magnitude. lia.
Qed.

Lemma mul_finite_nonneg (a b : f64) :
  is_finite a = true -> is_finite b = true -> nonneg a -> nonneg b ->
  nonneg (a * b)%f64.
Proof.
  destruct a as [sa|[|]| |[|] ma ea]; cbn [is_finite nonneg];
    try discriminate; try tauto;
    destruct b as [sb|[|]| |[|] mb eb]; cbn [is_finite nonneg];
    try discriminate; try tauto;
    intros _ _ _ _; unfold mul; cbn [SFmul xorb]; try exact I.
  apply binary_round_aux_nonneg. lia.
Qed.

(** Sums of a number that is not negative and a positive one. *)
Lemma binary_round_magnitude (m : positive) (e : Z) :
  -1074 < Z.pos (digits2_pos m) + e ->
  magnitude_ge (binary_round prec emax false m e)
               (Z.pos (digits2_pos m) + e).
Proof.
  intros HD. unfold binary_round. rewrite shl_align_pshl.
  destruct (Z.ltb_spec (fexp prec emax (Z.pos (digits2_pos m) + e)) e)
    as [H|H].
  - pose proof (binary_round_aux_magnitude
                  (pshl m (e - fexp prec emax (Z.pos (digits2_pos m) + e)))
                  (fexp prec emax (Z.pos (digits2_pos m) + e)) loc_Exact) as R.
    rewrite pshl_digits in R by lia.
    eapply magnitude_ge_weaken; [|apply R; lia]. lia.
  - apply binary_round_aux_magnitude. exact HD.
Qed.

Lemma add_magnitude (x y : f64) (B : Z) :
  nonneg x -> magnitude_ge y B -> -1074 < B ->
  magnitude_ge (x + y)%f64 B.
Proof.
  destruct x as [sx|[|]| |[|] mx ex]; cbn [nonneg]; try tauto;
    destruct y as [sy|[|]| |[|] my ey]; cbn [magnitude_ge]; try tauto;
    intros _ Hy HB; unfold add; cbn [SFadd magnitude_ge]; try exact I;
    try exact Hy.
  cbn [cond_Zopp].
  set (ez := Z.min ex ey).
  rewrite !shl_align_fst_value by (unfold ez; lia).
  destruct (digits2_bounds my) as [Ly _].
  set (dy := Z.pos (digits2_pos my)) in *.
  assert (Hdy : 0 < dy) by (unfold dy; lia).
  assert (Hx : 0 < Z.pos mx * 2 ^ (ex - ez))
    by (apply Z.mul_pos_pos; [lia | apply Z.pow_pos_nonneg; unfold ez; lia]).
  assert (Hs : 2 ^ (dy - 1 + (ey - ez)) <= Z.pos my * 2 ^ (ey - ez)).
  { rewrite Z.pow_add_r by (unfold ez; lia).
    apply Z.mul_le_mono_nonneg_r; [apply Z.pow_nonneg; lia | exact Ly]. }
  remember (Z.pos mx * 2 ^ (ex - ez)) as X.
  remember (Z.pos my * 2 ^ (ey - ez)) as Y.
  assert (Hpos : 0 < 2 ^ (dy - 1 + (ey - ez)))
    by (apply Z.pow_pos_nonneg; unfold ez; lia).
  destruct (X + Y) as [|s|s] eqn:Es; try lia.
  cbn [binary_normalize].
  pose proof (digits2_lower s (dy - 1 + (ey - ez))
                ltac:(unfold ez; lia) ltac:(lia)) as Hd.
  apply (magnitude_ge_weaken _ (Z.pos (digits2_pos s) + ez)); [lia|].
  apply binary_round_magnitude. lia.
Qed.

Lemma shifted_mantissa (m : positive) (s : Z) :
  0 <= s ->
  match s with
  | 0 => Z.pos m
  | Z.pos _ => Z.shiftl (Z.pos m) s
  | Z.neg _ => 0
  end = Z.pos m * 2 ^ s.
Proof.
  destruct s as [|p|p]; intros Hs.
  - rewrite Z.pow_0_r. lia.
  - apply Z.shiftl_mul_pow2. lia.
  - lia.
Qed.

(** Square roots of numbers that are at least 4. *)
Lemma sqrt_magnitude (x : f64) :
  magnitude_ge x 3 -> magnitude_ge (sqrt x) 2.
Proof.
  destruct x as [s|[|]| |[|] m e]; cbn [magnitude_ge]; try tauto.
  intros HD. unfold sqrt. cbn [SFsqrt].
  unfold SFsqrt_core_binary. cbn [Zdigits2].
  set (d := Z.pos (digits2_pos m)) in *.
  set (e' := Z.min (fexp prec emax (Z.div2 (d + e + 1))) (Z.div2 e)).
  assert (Hh : 2 * Z.div2 e <= e).
  { pose proof (Z.div2_odd e) as Ho.
    destruct (Z.odd e); unfold Z.b2z in Ho; lia. }
  assert (He' : 2 * e' <= e) by (unfold e'; lia).
  set (s := e - 2 * e').
  assert (Hs : 0 <= s) by (unfold s; lia).
  set (m' := match s with
             | 0 => Z.pos m
             | Z.pos _ => Z.shiftl (Z.pos m) s
             | Z.neg _ => 0
             end).
  assert (Hm' : m' = Z.pos m * 2 ^ s) by (apply shifted_mantissa; exact Hs).
  destruct (digits2_bounds m) as [Lm _]. fold d in Lm.
  assert (Hd : 0 < d) by (unfold d; lia).
  assert (Hm1 : 1 <= m').
  { rewrite Hm'. pose proof (Z.pow_pos_nonneg 2 s ltac:(lia) Hs). nia. }
  pose proof (Z.sqrtrem_spec m' ltac:(lia)) as Hspec.
  destruct (Z.sqrtrem m') as [q r].
  destruct Hspec as [Hqr Hr].
  assert (Hq1 : 1 <= q) by nia.
  set (lz := if r =? 0 then loc_Exact
             else loc_Inexact (if r <=? q then Lt else Gt)).
  destruct q as [|q|q]; try lia.
  assert (Hmag : 2 <= Z.pos (digits2_pos q) + e').
  { destruct (Z.le_gt_cases 2 e') as [Hbig|Hsmall]; [lia|].
    assert (Hlow : 2 ^ (1 - e') <= Z.pos q).
    { assert (Hsq : 2 ^ (1 - e') * 2 ^ (1 - e') <= m').
      { rewrite <- Z.pow_add_r by lia. rewrite Hm'.
        apply Z.le_trans with (2 ^ (d - 1 + s));
          [apply Z.pow_le_mono_r; unfold s; lia|].
        rewrite Z.pow_add_r by lia.
        apply Z.mul_le_mono_nonneg_r; [apply Z.pow_nonneg; lia | exact Lm]. }
      pose proof (Z.pow_pos_nonneg 2 (1 - e') ltac:(lia) ltac:(lia)) as Hp.
      remember (2 ^ (1 - e')) as P. nia. }
    pose proof (digits2_lower q (1 - e') ltac:(lia) Hlow). lia. }
  apply (magnitude_ge_weaken _ (Z.pos (digits2_pos q) + e')); [exact Hmag|].
  apply binary_round_aux_magnitude. lia.
Qed.

(* ================================================================== *)
(** * The divisors of the magnification *)

Lemma epsilon_magnitude : magnitude_ge epsilon (-29).
Proof. unfold magnitude_ge, epsilon. apply Z.leb_le. vm_compute. reflexivity. Qed.

Lemma four_magnitude : magnitude_ge (of_Z 4) 3.
Proof. apply Z.leb_le. vm_compute. reflexivity. Qed.

Lemma nonneg_of_leb (x : f64) :
  is_finite x = true -> (of_Z 0 <=? x)%f64 = true -> nonneg x.
Proof.
  destruct x as [s|s| |[|] m e]; cbn [is_finite nonneg]; try discriminate;
    intros; exact I.
Qed.

Lemma positive_finite (x : f64) :
  is_finite x = true -> (of_Z 0 <? x)%f64 = true ->
  exists m e, x = S754_finite false m e.
Proof.
  destruct x as [s|s| |[|] m e]; cbn [is_finite]; try discriminate;
    intros _ H; try discriminate H.
  exists m, e. reflexivity.
Qed.

Lemma div_nonneg (m : positive) (e : Z) (y : f64) (B : Z) :
  magnitude_ge y B -> nonneg (S754_finite false m e / y)%f64.
Proof.
  destruct y as [sy|[|]| |[|] my ey]; cbn [magnitude_ge]; try tauto;
    intros _; unfold div; cbn [SFdiv xorb]; try exact I.
  pose proof (div_core_nonneg m my e ey) as Hq.
  destruct (SFdiv_core_binary _ _ _ _ _ _) as [[mz ez] lz].
  apply binary_round_aux_nonneg. exact Hq.
Qed.

(** The correctly rounded product is one of the squares the theorem
    allows. *)
Lemma product_nonneg (x : f64) : nonneg x -> nonneg (x * x)%f64.
Proof.
  destruct x as [s|[|]| |[|] m e]; cbn [nonneg]; try tauto; intros _;
    unfold mul; cbn [SFmul xorb]; try exact I.
  apply binary_round_aux_nonneg. lia.
Qed.

Lemma calculate_magnification_with_product (u r e : f64) :
  calculate_magnification_with (fun x => (x * x)%f64) u r e
  = calculate_magnification u r e.
Proof. reflexivity. Qed.

(** A number that is not negative and not below [epsilon] has an exponent
    of at least that of [epsilon]. *)
Lemma not_below_epsilon (x : f64) :
  nonneg x -> (x <? epsilon)%f64 = false -> magnitude_ge x (-81).
Proof.
  destruct x as [s|[|]| |[|] m e]; cbn [nonneg]; try tauto; intros _.
  - intros H. discriminate H.
  - unfold ltb, SFltb, epsilon. cbn [SFcompare magnitude_ge].
    destruct (Z.compare_spec e (-82)) as [E|E|E]; intros H;
      try discriminate H; lia.
Qed.

(** A valid number above one that is not negative is positive, and at
    least the smallest subnormal. *)
Lemma above_nonneg (u rho : f64) :
  is_finite u = true -> valid_binary prec emax u = true ->
  (of_Z 0 <=? u)%f64 = true ->
  nonneg rho -> (u <=? rho)%f64 = false ->
  magnitude_ge u (-1073).
Proof.
  destruct u as [s|s| |[|] m e]; cbn [is_finite];
    intros Hf Hv H0 Hrho Hle; try discriminate Hf; try discriminate H0.
  - destruct rho as [sr|[|]| |[|] mr er]; cbn [nonneg] in Hrho;
      try tauto; discriminate Hle.
  - cbn [magnitude_ge]. cbn [valid_binary] in Hv. unfold bounded in Hv.
    apply andb_prop in Hv. destruct Hv as [Hc _].
    unfold canonical_mantissa in Hc. apply Z.eqb_eq in Hc.
    unfold fexp, SpecFloat.emin, prec, emax in Hc. lia.
Qed.

(** The divisor [v * sqrt (s + 4)] for [v] positive, at least [2^(A-1)]
    with [A >= -1073], and [s] not negative: the square root is at least 2,
    so the product does not underflow to zero. *)
Lemma divisor_positive (v s : f64) (A : Z) :
  magnitude_ge v A -> -1074 < A -> nonneg s ->
  (of_Z 0 <? v * sqrt (s + of_Z 4))%f64 = true.
Proof.
  intros Hv HA Hs.
  apply (magnitude_ge_positive _ (A + 2 - 1)).
  apply mul_magnitude; [exact Hv | | lia].
  apply sqrt_magnitude, add_magnitude;
    [exact Hs | exact four_magnitude | lia].
Qed.

(** C6 (amended).  On the domain [u >= 0], [sourceRadius > 0],
    [einsteinRadius >= 0] (binary64 numbers), every division of
    [calculate_magnification] has a strictly positive divisor, on each of
    the three branches: with every division checked, the function returns
    the same value.  This holds whatever [**2] computes, as long as the
    square of a number that is not negative is not negative either; the
    rounded product is such a square.  The value itself is not always
    finite, nor always at least 1 in the standard branch: two inputs of
    the domain show it, with the magnification function above. *)
Theorem calculate_magnification_divisors_positive
  (square : f64 -> f64) (u r e : f64) :
  (forall x, nonneg x -> nonneg (square x)) ->
  in_domain u r e -> valid_binary prec emax u = true ->
  calculate_magnification_checked square u r e
  = Some (calculate_magnification_with square u r e).
Proof.
  intros Hsq (Hu & Hr & He & Hu0 & Hr0 & He0) Hv.
  pose proof (nonneg_of_leb u Hu Hu0) as Hun.
  pose proof (nonneg_of_leb e He He0) as Hen.
  destruct (positive_finite r Hr Hr0) as (mr & er & ->).
  assert (Hd : magnitude_ge (e + epsilon)%f64 (-29))
    by (apply add_magnitude; [exact Hen | exact epsilon_magnitude | lia]).
  pose proof (div_nonneg mr er _ _ Hd) as Hrho.
  unfold calculate_magnification_checked, calculate_magnification_with.
  unfold checked_div at 1.
  rewrite (magnitude_ge_positive _ _ Hd).
  set (rho := (S754_finite false mr er / (e + epsilon))%f64) in *.
  cbn zeta.
  destruct (u <=? rho)%f64 eqn:Hle.
  - destruct (rho <? epsilon)%f64 eqn:Hlt.
    + unfold checked_div.
      rewrite (divisor_positive (u + epsilon)%f64 (square u) (-29));
        [reflexivity | | lia | apply Hsq, Hun].
      apply add_magnitude; [exact Hun | exact epsilon_magnitude | lia].
    + unfold checked_div.
      pose proof (not_below_epsilon rho Hrho Hlt) as Hm.
      rewrite (divisor_positive rho (square rho) (-81));
        [reflexivity | exact Hm | lia |].
      apply Hsq, (magnitude_ge_nonneg _ _ Hm).
  - unfold checked_div.
    rewrite (divisor_positive u (square u) (-1073));
      [reflexivity | apply (above_nonneg u rho); assumption | lia
      | apply Hsq, Hun].
Qed.

Lemma calculate_magnification_divisors_positive_witness :
  let u := of_Z 0 in
  let r := of_Z 8 in
  let e := einstein_radius (of_Z 5) in
  (forall x, nonneg x -> nonneg (x * x)%f64) /\
  in_domain u r e /\ valid_binary prec emax u = true /\
  calculate_magnification_checked (fun x => (x * x)%f64) u r e
  = Some (calculate_magnification u r e).
Proof.
  cbn zeta.
  assert (H1 : in_domain (of_Z 0) (of_Z 8) (einstein_radius (of_Z 5)))
    by (repeat split; vm_compute; reflexivity).
  assert (H2 : valid_binary prec emax (of_Z 0) = true) by reflexivity.
  split; [exact product_nonneg|]. split; [exact H1|]. split; [exact H2|].
  exact (calculate_magnification_divisors_positive
           (fun x => (x * x)%f64) _ _ _ product_nonneg H1 H2).
Defined.
